(** * Variant resolution engine of [VariantSelector.tsx]

    A shallow embedding of the product-variant selector
    (src/components/products/VariantSelector.tsx): the attribute index
    derived from the variant catalog ([productAttributes]), the click
    handler with smart switching ([handleSelect]), the variant-match effect,
    the auto-select effect and the two availability helpers
    ([isValueAvailable], [isValueOutOfStock]).

    Modelling conventions.
    - Identifiers and display texts are [string]s, as in the TypeScript
      interfaces.  [stock_quantity], [price] and [sort_order] are database
      integers and are modelled as [Z]; no modelled function reads [price].
    - [selectedAttributes : Record<string, string>] is a [gmap string string];
      [Object.entries] is [map_to_list] (the functions that iterate over the
      entries only test them or count them, so the enumeration order is
      immaterial).  Identifiers are assumed not to collide with the property
      names of [Object.prototype].
    - A JavaScript [Map] is an association list in insertion order.
    - JavaScript truthiness of [selectedAttributes[k]] is [truthy]: the key
      is present and its value is not the empty string.
    - React hooks are modelled by explicit state passing: a component state,
      the dependency of the auto-select effect, and a [commit] function that
      runs the effect when its dependency has changed.

    The development also covers what the render computes for each button
    ([buttonView]) and the repository's second, single-value selector
    (module [SingleValueSelector]). *)

From Stdlib Require Import ZArith String List Lia Permutation Sorted.
From stdpp Require Import gmap strings list fin_maps.

Local Open Scope string_scope.
Local Open Scope list_scope.
Local Open Scope Z_scope.

(** ** Data model (the TypeScript interfaces) *)

(** [product_attribute_values.product_attributes] *)
Record ProductAttribute := {
  attr_id : string;
  attr_name : string;
  attr_icon_url : option string;
  attr_sort_order : option Z
}.

(** [VariantAttributeValue.product_attribute_values] *)
Record ProductAttributeValue := {
  val_id : string;
  value : string;
  attribute_id : string;
  product_attributes : ProductAttribute
}.

Record VariantAttributeValue := {
  attribute_value_id : string;
  product_attribute_values : ProductAttributeValue
}.

Record ProductVariant := {
  id : string;
  product_id : string;
  price : Z;
  stock_quantity : Z;
  is_available : bool;
  image_urls : option (list string);
  product_variant_values : list VariantAttributeValue
}.

(** An entry of the value map / value array of one attribute. *)
Record ValueEntry := {
  ve_id : string;
  ve_value : string;
  ve_sort_order : Z
}.

(** An attribute entry; [V] is the [Map] of values while the index is being
    built and the array of values in the finished index. *)
Record AttrEntry (V : Type) := {
  ae_id : string;
  ae_name : string;
  ae_icon_url : option string;
  ae_sort_order : Z;
  ae_values : V
}.
Arguments ae_id {V} _.
Arguments ae_name {V} _.
Arguments ae_icon_url {V} _.
Arguments ae_sort_order {V} _.
Arguments ae_values {V} _.

(** ** JavaScript [Map] as an insertion-ordered association list *)

Module JsMap.

Definition t (V : Type) := list (string * V).

Definition has {V} (m : t V) (k : string) : bool :=
  existsb (fun p => String.eqb (fst p) k) m.

(** [m.set(k, x)]: replaces in place when the key exists, appends
    otherwise. *)
Fixpoint set {V} (m : t V) (k : string) (x : V) : t V :=
  match m with
  | [] => [(k, x)]
  | (k', y) :: r =>
      if String.eqb k' k then (k, x) :: r else (k', y) :: set r k x
  end.

(** Mutation of the object stored under [k] (the effect of
    [m.get(k)!.field.set(...)] on the shared entry). *)
Fixpoint update {V} (m : t V) (k : string) (f : V -> V) : t V :=
  match m with
  | [] => []
  | (k', y) :: r =>
      if String.eqb k' k then (k', f y) :: r else (k', y) :: update r k f
  end.

(** [Array.from(m.values())] *)
Definition values {V} (m : t V) : list V := List.map snd m.

Definition keys {V} (m : t V) : list string := List.map fst m.

(** [m.get(k)] *)
Fixpoint get {V} (m : t V) (k : string) : option V :=
  match m with
  | [] => None
  | (k', y) :: r => if String.eqb k' k then Some y else get r k
  end.

End JsMap.

(** ** Attribute index: [productAttributes] *)

(** [attr.sort_order || 0] *)
Definition sort_order_or_0 (o : option Z) : Z :=
  match o with Some z => z | None => 0 end.

(** Body of the inner [forEach] over [variant.product_variant_values]. *)
Definition index_step (attributesMap : JsMap.t (AttrEntry (JsMap.t ValueEntry)))
    (pvv : VariantAttributeValue) : JsMap.t (AttrEntry (JsMap.t ValueEntry)) :=
  let attrVal := product_attribute_values pvv in
  let attr := product_attributes attrVal in
  let attributesMap1 :=
    if negb (JsMap.has attributesMap (attr_id attr)) then
      JsMap.set attributesMap (attr_id attr)
        {| ae_id := attr_id attr;
           ae_name := attr_name attr;
           ae_icon_url := attr_icon_url attr;
           ae_sort_order := sort_order_or_0 (attr_sort_order attr);
           ae_values := [] |}
    else attributesMap in
  JsMap.update attributesMap1 (attr_id attr) (fun attrEntry =>
    if negb (JsMap.has (ae_values attrEntry) (val_id attrVal)) then
      {| ae_id := ae_id attrEntry;
         ae_name := ae_name attrEntry;
         ae_icon_url := ae_icon_url attrEntry;
         ae_sort_order := ae_sort_order attrEntry;
         ae_values :=
           JsMap.set (ae_values attrEntry) (val_id attrVal)
             {| ve_id := val_id attrVal;
                ve_value := value attrVal;
                ve_sort_order := 0 |} |}
    else attrEntry).

(** The two nested [forEach] loops. *)
Definition build_attributesMap (variants : list ProductVariant)
  : JsMap.t (AttrEntry (JsMap.t ValueEntry)) :=
  fold_left
    (fun m variant => fold_left index_step (product_variant_values variant) m)
    variants [].

(** [Array.prototype.sort((a, b) => a.sort_order - b.sort_order)]: a stable
    sort by ascending [sort_order]. *)
Fixpoint sort_insert {V} (a : AttrEntry V) (l : list (AttrEntry V))
  : list (AttrEntry V) :=
  match l with
  | [] => [a]
  | b :: r =>
      if ae_sort_order a <=? ae_sort_order b then a :: b :: r
      else b :: sort_insert a r
  end.

Definition sort_by_sort_order {V} (l : list (AttrEntry V)) : list (AttrEntry V) :=
  fold_right sort_insert [] l.

(** [.map(attr => ({ ...attr, values: Array.from(attr.values.values()) }))] *)
Definition values_to_array (attr : AttrEntry (JsMap.t ValueEntry))
  : AttrEntry (list ValueEntry) :=
  {| ae_id := ae_id attr;
     ae_name := ae_name attr;
     ae_icon_url := ae_icon_url attr;
     ae_sort_order := ae_sort_order attr;
     ae_values := JsMap.values (ae_values attr) |}.

Definition productAttributes (variants : option (list ProductVariant))
  : list (AttrEntry (list ValueEntry)) :=
  match variants with
  | None => []
  | Some vs =>
      List.map values_to_array
        (sort_by_sort_order (JsMap.values (build_attributesMap vs)))
  end.

(** ** Selection helpers *)

(** The test repeated inline throughout the component:
    [v.product_variant_values.some(pvv =>
       pvv.product_attribute_values.attribute_id === attrId &&
       pvv.product_attribute_values.id === valId)] *)
Definition hasAssignment (v : ProductVariant) (attrId valId : string) : bool :=
  existsb
    (fun pvv =>
       String.eqb (attribute_id (product_attribute_values pvv)) attrId &&
       String.eqb (val_id (product_attribute_values pvv)) valId)
    (product_variant_values v).

(** JavaScript truthiness of [selectedAttributes[k]]. *)
Definition truthy (o : option string) : bool :=
  match o with
  | Some s => negb (String.eqb s "")
  | None => false
  end.

(** ** Click handler: [handleSelect] *)

(** [variants.some(v => Object.entries(nextSelection).every(...))] *)
Definition hasExactMatch (variants : list ProductVariant)
    (nextSelection : gmap string string) : bool :=
  existsb
    (fun v =>
       forallb (fun '(attrId, valId) => hasAssignment v attrId valId)
         (map_to_list nextSelection))
    variants.

(** The inner [forEach] counting the matches of one candidate. *)
Definition countMatches (selectedAttributes : gmap string string)
    (attributeId : string) (candidate : ProductVariant) : Z :=
  fold_left
    (fun matches '(key, val) =>
       if String.eqb key attributeId then matches
       else if hasAssignment candidate key val then matches + 1
       else matches)
    (map_to_list selectedAttributes) 0.

(** The [candidates.forEach] loop; the state is
    [(bestCandidate, maxMatches)]. *)
Definition bestCandidate_loop (selectedAttributes : gmap string string)
    (attributeId : string) (candidates : list ProductVariant)
    (init : ProductVariant * Z) : ProductVariant * Z :=
  fold_left
    (fun '(bestCandidate, maxMatches) candidate =>
       let matches := countMatches selectedAttributes attributeId candidate in
       if maxMatches <? matches then (candidate, matches)
       else (bestCandidate, maxMatches))
    candidates init.

(** [newResolvedSelection]: one assignment per [product_variant_values]
    entry, later entries overwriting earlier ones. *)
Definition selection_of_variant (v : ProductVariant) : gmap string string :=
  fold_left
    (fun sel pvv =>
       <[attribute_id (product_attribute_values pvv)
           := val_id (product_attribute_values pvv)]> sel)
    (product_variant_values v) ∅.

(** The handler is reached from a rendered button only, hence with a loaded
    catalog; its result is the argument of [setSelectedAttributes]. *)
Definition handleSelect (variants : list ProductVariant)
    (selectedAttributes : gmap string string)
    (attributeId valueId : string) : gmap string string :=
  let nextSelection := <[attributeId := valueId]> selectedAttributes in
  if hasExactMatch variants nextSelection then nextSelection
  else
    let candidates :=
      List.filter (fun v => hasAssignment v attributeId valueId) variants in
    match candidates with
    | [] => {[attributeId := valueId]}
    | c0 :: _ =>
        let bestCandidate :=
          fst (bestCandidate_loop selectedAttributes attributeId candidates
                 (c0, -1)) in
        selection_of_variant bestCandidate
    end.

(** ** Availability helpers *)

(** The filter shared by [isValueAvailable] and [isValueOutOfStock]: the
    variant has the target value and matches every other selected
    attribute. *)
Definition matchesTarget (selectedAttributes : gmap string string)
    (attributeId valueId : string) (variant : ProductVariant) : bool :=
  if negb (hasAssignment variant attributeId valueId) then false
  else
    forallb
      (fun '(key, selectedVal) =>
         if String.eqb key attributeId then true
         else hasAssignment variant key selectedVal)
      (map_to_list selectedAttributes).

Definition isValueAvailable (variants : list ProductVariant)
    (selectedAttributes : gmap string string)
    (attributeId valueId : string) : bool :=
  existsb (matchesTarget selectedAttributes attributeId valueId) variants.

Definition isValueOutOfStock (variants : list ProductVariant)
    (selectedAttributes : gmap string string)
    (attributeId valueId : string) : bool :=
  let matchingVariants :=
    List.filter (matchesTarget selectedAttributes attributeId valueId)
      variants in
  if (length matchingVariants =? 0)%nat then false
  else
    forallb (fun v => (stock_quantity v =? 0) || negb (is_available v))
      matchingVariants.

(** ** Variant-match effect *)

(** One invocation of [onVariantChange]. *)
Record Report := {
  rep_variant : option ProductVariant;
  rep_attributeName : string;
  rep_valueName : string
}.

(** [productAttributes.every(attr => selectedAttributes[attr.id])] *)
Definition allAttributesSelected (index : list (AttrEntry (list ValueEntry)))
    (selectedAttributes : gmap string string) : bool :=
  forallb (fun attr => truthy (selectedAttributes !! ae_id attr)) index.

(** The predicate given to [variants.find]. *)
Definition matchesAll (index : list (AttrEntry (list ValueEntry)))
    (selectedAttributes : gmap string string) (variant : ProductVariant) : bool :=
  forallb
    (fun attr =>
       match selectedAttributes !! ae_id attr with
       | Some selectedValueId => hasAssignment variant (ae_id attr) selectedValueId
       | None => false
       end)
    index.

(** [a.values.find(v => v.id === valId)?.value || ''] *)
Definition valueNameOf (selectedAttributes : gmap string string)
    (a : AttrEntry (list ValueEntry)) : string :=
  match selectedAttributes !! ae_id a with
  | Some valId =>
      match List.find (fun v => String.eqb (ve_id v) valId) (ae_values a) with
      | Some v => ve_value v
      | None => ""
      end
  | None => ""
  end.

(** [xs.join(', ')] *)
Definition join (xs : list string) : string := String.concat ", " xs.

(** The effect returns [None] when it returns before calling
    [onVariantChange], and [Some r] when it calls it with [r]. *)
Definition variantMatchEffect (variants : option (list ProductVariant))
    (selectedAttributes : gmap string string) : option Report :=
  let index := productAttributes variants in
  match variants with
  | None => None
  | Some vs =>
      if (length index =? 0)%nat then None
      else if allAttributesSelected index selectedAttributes then
        match List.find (matchesAll index selectedAttributes) vs with
        | Some matchedVariant =>
            Some {| rep_variant := Some matchedVariant;
                    rep_attributeName := join (List.map ae_name index);
                    rep_valueName :=
                      join (List.map (valueNameOf selectedAttributes) index) |}
        | None =>
            Some {| rep_variant := None;
                    rep_attributeName := "";
                    rep_valueName := "" |}
        end
      else
        Some {| rep_variant := None; rep_attributeName := ""; rep_valueName := "" |}
  end.

(** ** Auto-select effect *)

(** Body of the [productAttributes.forEach]; the state is
    [(newSelection, changed)]. *)
Definition autoSelect_step (st : gmap string string * bool)
    (attr : AttrEntry (list ValueEntry)) : gmap string string * bool :=
  let '(newSelection, changed) := st in
  match ae_values attr with
  | [v0] =>
      if negb (truthy (newSelection !! ae_id attr))
      then (<[ae_id attr := ve_id v0]> newSelection, true)
      else (newSelection, changed)
  | _ => (newSelection, changed)
  end.

(** The selection after the effect has run ([setSelectedAttributes] is
    called only when [changed]). *)
Definition autoSelect (index : list (AttrEntry (list ValueEntry)))
    (selectedAttributes : gmap string string) : gmap string string :=
  if (0 <? length index)%nat then
    let '(newSelection, changed) :=
      fold_left autoSelect_step index (selectedAttributes, false) in
    if changed then newSelection else selectedAttributes
  else selectedAttributes.

(** ** The component as a state machine *)

(** [variants] is the data of [useQuery]; [variants_ref] stands for the
    identity of that object, which is what the dependency arrays compare:
    [useMemo(..., [variants])] recomputes [productAttributes] exactly when
    it changes, so it also identifies the [productAttributes] array.
    [autoSelect_dep] is the dependency the auto-select effect last ran
    with ([None] before the first commit). *)
Record Component := {
  variants : option (list ProductVariant);
  variants_ref : nat;
  selectedAttributes : gmap string string;
  autoSelect_dep : option nat
}.

Inductive Event :=
| QueryData (data : option (list ProductVariant))
| Click (attributeId valueId : string)
| Rerender.

(** A button exists for [(attributeId, valueId)]: the component renders
    (the catalog is loaded and not empty) and the pair is in the index. *)
Definition hasButton (variants : option (list ProductVariant))
    (attributeId valueId : string) : bool :=
  match variants with
  | None => false
  | Some vs =>
      negb (length vs =? 0)%nat &&
      existsb
        (fun attr =>
           String.eqb (ae_id attr) attributeId &&
           existsb (fun val => String.eqb (ve_id val) valueId) (ae_values attr))
        (productAttributes variants)
  end.

Definition apply_event (ev : Event) (c : Component) : Component :=
  match ev with
  | QueryData data =>
      match data, variants c with
      | None, None => c
      | _, _ =>
          {| variants := data;
             variants_ref := S (variants_ref c);
             selectedAttributes := selectedAttributes c;
             autoSelect_dep := autoSelect_dep c |}
      end
  | Click attributeId valueId =>
      match variants c with
      | Some vs =>
          if hasButton (variants c) attributeId valueId then
            {| variants := variants c;
               variants_ref := variants_ref c;
               selectedAttributes :=
                 handleSelect vs (selectedAttributes c) attributeId valueId;
               autoSelect_dep := autoSelect_dep c |}
          else c
      | None => c
      end
  | Rerender => c
  end.

(** Render and commit: the auto-select effect runs when its dependency
    [productAttributes] differs from the one of its last run. *)
Definition commit (c : Component) : Component :=
  if bool_decide (autoSelect_dep c = Some (variants_ref c)) then c
  else
    {| variants := variants c;
       variants_ref := variants_ref c;
       selectedAttributes :=
         autoSelect (productAttributes (variants c)) (selectedAttributes c);
       autoSelect_dep := Some (variants_ref c) |}.

Definition step (c : Component) (ev : Event) : Component :=
  commit (apply_event ev c).

(** [useState({})] and the first render. *)
Definition mount (data : option (list ProductVariant)) : Component :=
  commit {| variants := data;
            variants_ref := 0;
            selectedAttributes := ∅;
            autoSelect_dep := None |}.

Definition run (data : option (list ProductVariant)) (evs : list Event)
  : Component :=
  fold_left step evs (mount data).

(** ** Worked catalogs *)

Module Examples.

Definition mkAttr (i n : string) (so : option Z) : ProductAttribute :=
  {| attr_id := i; attr_name := n; attr_icon_url := None;
     attr_sort_order := so |}.

Definition Color := mkAttr "color" "Color" (Some 1).
Definition Size := mkAttr "size" "Size" (Some 2).

Definition mkVal (a : ProductAttribute) (i txt : string)
  : VariantAttributeValue :=
  {| attribute_value_id := i;
     product_attribute_values :=
       {| val_id := i; value := txt; attribute_id := attr_id a;
          product_attributes := a |} |}.

Definition Red := mkVal Color "red" "Red".
Definition Blue := mkVal Color "blue" "Blue".
Definition small := mkVal Size "s" "S".
Definition medium := mkVal Size "m" "M".

Definition mkVariant (i : string) (stock : Z) (avail : bool)
    (pvvs : list VariantAttributeValue) : ProductVariant :=
  {| id := i; product_id := "p1"; price := 100; stock_quantity := stock;
     is_available := avail; image_urls := None;
     product_variant_values := pvvs |}.

(** The catalog of the specification's example. *)
Definition redS := mkVariant "v1" 2 true [Red; small].
Definition redM := mkVariant "v2" 0 true [Red; medium].
Definition blueS := mkVariant "v3" 5 true [Blue; small].
Definition catalog := [redS; redM; blueS].


(** A variant without assignments, and a product that varies in colour
    only. *)
Definition bare := mkVariant "v0" 1 true [].
Definition redOnly := mkVariant "r1" 1 true [Red].
Definition blueOnly := mkVariant "r2" 1 true [Blue].
Definition colours := [redOnly; blueOnly].

(** A product that varies in size only. *)
Definition smallOnly := mkVariant "z1" 1 true [small].
Definition mediumOnly := mkVariant "z2" 1 true [medium].
Definition sizes := [smallOnly; mediumOnly].

(** A product whose blue variant has no size. *)
Definition blueNoSize := [redS; blueOnly].

Definition redM_selection : gmap string string :=
  {["color" := "red"; "size" := "m"]}.

Definition blueS_selection : gmap string string :=
  {["color" := "blue"; "size" := "s"]}.

(** A three-attribute catalog with two candidates of equal overlap. *)
Definition Fabric := mkAttr "fabric" "Fabric" (Some 3).
Definition cotton := mkVal Fabric "cotton" "Cotton".
Definition wool := mkVal Fabric "wool" "Wool".

Definition redSCotton := mkVariant "w1" 3 true [Red; small; cotton].
Definition blueMCotton := mkVariant "w2" 1 true [Blue; medium; cotton].
Definition blueSWool := mkVariant "w3" 4 true [Blue; small; wool].
Definition blueMWool := mkVariant "w4" 0 false [Blue; medium; wool].
Definition fabrics := [redSCotton; blueMCotton; blueSWool; blueMWool].

Definition redSCotton_selection : gmap string string :=
  {["color" := "red"; "size" := "s"; "fabric" := "cotton"]}.

End Examples.

(** ** Specification vocabulary *)

(** The variant carries the assignment [(attrId, valId)]. *)
Definition Carries (v : ProductVariant) (attrId valId : string) : Prop :=
  ∃ pvv, pvv ∈ product_variant_values v ∧
         attribute_id (product_attribute_values pvv) = attrId ∧
         val_id (product_attribute_values pvv) = valId.

(** The variant carries every entry of the selection. *)
Definition CarriesAll (v : ProductVariant) (sel : gmap string string) : Prop :=
  ∀ k x, sel !! k = Some x → Carries v k x.

(** The variant carries [(attributeId, valueId)] and agrees with the
    selection on every other attribute present in it. *)
Definition Compatible (sel : gmap string string) (attributeId valueId : string)
    (v : ProductVariant) : Prop :=
  Carries v attributeId valueId ∧
  ∀ k x, sel !! k = Some x → k ≠ attributeId → Carries v k x.

(** Number of entries of the selection, other than the one of
    [attributeId], that the candidate carries. *)
Definition overlap (sel : gmap string string) (attributeId : string)
    (c : ProductVariant) : nat :=
  length
    (List.filter
       (fun kv => negb (String.eqb (fst kv) attributeId) &&
                  hasAssignment c (fst kv) (snd kv))
       (map_to_list sel)).

(** Identity of the attribute, and of the value, that the index builder
    reads from an assignment. *)
Definition pvv_attr (p : VariantAttributeValue) : string :=
  attr_id (product_attributes (product_attribute_values p)).

Definition pvv_val (p : VariantAttributeValue) : string :=
  val_id (product_attribute_values p).

(** Some variant carries a value for the attribute. *)
Definition HasAttribute (variants : list ProductVariant) (a : string) : Prop :=
  ∃ w p, w ∈ variants ∧ p ∈ product_variant_values w ∧ pvv_attr p = a.

(** The pair (attribute, value) appears on some variant. *)
Definition AppearsOn (variants : list ProductVariant) (a x : string) : Prop :=
  ∃ w p, w ∈ variants ∧ p ∈ product_variant_values w ∧
         pvv_attr p = a ∧ pvv_val p = x.

(** The (attribute, value) pairs listed by an attribute index. *)
Definition index_pairs (index : list (AttrEntry (list ValueEntry)))
  : list (string * string) :=
  flat_map
    (fun attr => List.map (fun val => (ae_id attr, ve_id val)) (ae_values attr))
    index.

(** Invariant of the index construction after the assignments [seen] have
    been visited. *)
Record IndexInv (seen : list VariantAttributeValue)
    (m : JsMap.t (AttrEntry (JsMap.t ValueEntry))) : Prop := {
  inv_keys_nodup : NoDup (JsMap.keys m);
  inv_attr_seen :
    ∀ k, is_Some (JsMap.get m k) ↔ ∃ p, p ∈ seen ∧ pvv_attr p = k;
  inv_entry_id : ∀ k e, JsMap.get m k = Some e → ae_id e = k;
  inv_vals_nodup :
    ∀ k e, JsMap.get m k = Some e → NoDup (JsMap.keys (ae_values e));
  inv_val_id :
    ∀ k e vk ve, JsMap.get m k = Some e →
                 JsMap.get (ae_values e) vk = Some ve → ve_id ve = vk;
  inv_val_seen :
    ∀ k e vk, JsMap.get m k = Some e →
              (is_Some (JsMap.get (ae_values e) vk) ↔
               ∃ p, p ∈ seen ∧ pvv_attr p = k ∧ pvv_val p = vk)
}.

(** The selection holds a value for the attribute, in the sense of the
    component's truthiness tests: an entry with a non-empty value. *)
Definition Selected (sel : gmap string string) (k x : string) : Prop :=
  sel !! k = Some x ∧ x ≠ "".

(** A full selection: one selected value for every attribute of the index. *)
Definition FullSelection (index : list (AttrEntry (list ValueEntry)))
    (sel : gmap string string) : Prop :=
  ∀ e, e ∈ index → ∃ x, Selected sel (ae_id e) x.

(** The assignment set of the variant equals the selection exactly. *)
Definition AssignmentsEqual (v : ProductVariant) (sel : gmap string string)
  : Prop :=
  ∀ k x, sel !! k = Some x ↔ Carries v k x.

(** Selection invariant of the data model: every attribute present in the
    selection appears in the attribute index. *)
Definition SelectionInIndex (index : list (AttrEntry (list ValueEntry)))
    (sel : gmap string string) : Prop :=
  ∀ k, is_Some (sel !! k) → k ∈ List.map ae_id index.

Definition selectionInIndex (index : list (AttrEntry (list ValueEntry)))
    (sel : gmap string string) : bool :=
  forallb
    (fun '(k, _) => existsb (fun e => String.eqb (ae_id e) k) index)
    (map_to_list sel).

(** [onVariantChange(null, '', '')] *)
Definition nullReport : Report :=
  {| rep_variant := None; rep_attributeName := ""; rep_valueName := "" |}.

(** The event delivers catalog data (a catalog reload). *)
Definition isReload (ev : Event) : bool :=
  match ev with QueryData _ => true | _ => false end.

(** The auto-select effect has run for the current [productAttributes]. *)
Definition committed (c : Component) : Prop :=
  autoSelect_dep c = Some (variants_ref c).

(** Data-model invariant of a variant: at most one value per attribute. *)
Definition oneValuePerAttribute (v : ProductVariant) : bool :=
  forallb
    (fun p =>
       forallb
         (fun q =>
            negb (String.eqb (attribute_id (product_attribute_values p))
                    (attribute_id (product_attribute_values q)))
            || String.eqb (val_id (product_attribute_values p))
                 (val_id (product_attribute_values q)))
         (product_variant_values v))
    (product_variant_values v).

(** Data-model invariant of a variant: the attribute reference of every
    assigned value is the identity of its nested attribute record. *)
Definition consistentRefs (v : ProductVariant) : bool :=
  forallb
    (fun p =>
       String.eqb (attribute_id (product_attribute_values p))
         (attr_id (product_attributes (product_attribute_values p))))
    (product_variant_values v).

Definition wellFormedCatalog (variants : list ProductVariant) : bool :=
  forallb (fun v => oneValuePerAttribute v && consistentRefs v) variants.

(** ** Rendered buttons *)

(** What the render computes for the button of a value: [isSelected],
    [available], [outOfStock], the three conditional class groups and the
    [title]. *)
Record ButtonView := {
  bv_isSelected : bool;
  bv_available : bool;
  bv_outOfStock : bool;
  bv_dashed : bool;
  bv_destructive : bool;
  bv_muted : bool;
  bv_title : string
}.

Definition buttonView (variants : list ProductVariant)
    (selectedAttributes : gmap string string)
    (attributeId valueId : string) : ButtonView :=
  let isSelected :=
    bool_decide (selectedAttributes !! attributeId = Some valueId) in
  let available :=
    isValueAvailable variants selectedAttributes attributeId valueId in
  let outOfStock :=
    available &&
    isValueOutOfStock variants selectedAttributes attributeId valueId in
  {| bv_isSelected := isSelected;
     bv_available := available;
     bv_outOfStock := outOfStock;
     bv_dashed := negb available && negb isSelected;
     bv_destructive := negb available && isSelected;
     bv_muted := outOfStock && negb isSelected;
     bv_title :=
       if negb available then "Switch to this option"
       else if outOfStock then "Out of stock" else "" |}.

(** ** First-seen order *)

(** The distinct elements of a list in the order of their first
    occurrence. *)
Definition first_seen (l : list string) : list string :=
  fold_left
    (fun acc x => if existsb (String.eqb x) acc then acc else acc ++ [x])
    l [].

(** All assignments of the catalog in the order the index builder visits
    them. *)
Definition all_assignments (variants : list ProductVariant)
  : list VariantAttributeValue :=
  flat_map product_variant_values variants.

(** The assignments seen before the first one of attribute [k]. *)
Definition FirstOf (seen : list VariantAttributeValue) (k : string)
    (p : VariantAttributeValue) : Prop :=
  ∃ pre post, seen = pre ++ p :: post ∧ pvv_attr p = k ∧
              ∀ q, q ∈ pre → pvv_attr q ≠ k.

(** The first assignment of value [vk] to attribute [k]. *)
Definition FirstPair (seen : list VariantAttributeValue) (k vk : string)
    (p : VariantAttributeValue) : Prop :=
  ∃ pre post, seen = pre ++ p :: post ∧ pvv_attr p = k ∧ pvv_val p = vk ∧
              ∀ q, q ∈ pre → ¬ (pvv_attr q = k ∧ pvv_val q = vk).

(** The objects the index builder creates for an assignment: the value
    entry, the attribute entry, and the attribute entry after the value has
    been added to its value map. *)
Definition newValueOf (p : VariantAttributeValue) : ValueEntry :=
  {| ve_id := pvv_val p;
     ve_value := value (product_attribute_values p);
     ve_sort_order := 0 |}.

Definition newEntryOf (p : VariantAttributeValue)
  : AttrEntry (JsMap.t ValueEntry) :=
  {| ae_id := pvv_attr p;
     ae_name := attr_name (product_attributes (product_attribute_values p));
     ae_icon_url :=
       attr_icon_url (product_attributes (product_attribute_values p));
     ae_sort_order :=
       sort_order_or_0
         (attr_sort_order (product_attributes (product_attribute_values p)));
     ae_values := [] |}.

Definition addValueOf (p : VariantAttributeValue)
    (attrEntry : AttrEntry (JsMap.t ValueEntry))
  : AttrEntry (JsMap.t ValueEntry) :=
  if negb (JsMap.has (ae_values attrEntry) (pvv_val p)) then
    {| ae_id := ae_id attrEntry;
       ae_name := ae_name attrEntry;
       ae_icon_url := ae_icon_url attrEntry;
       ae_sort_order := ae_sort_order attrEntry;
       ae_values :=
         JsMap.set (ae_values attrEntry) (pvv_val p) (newValueOf p) |}
  else attrEntry.

(** The display data of an attribute entry are those of the assignment. *)
Definition entryDataOf (p : VariantAttributeValue)
    {V} (e : AttrEntry V) : Prop :=
  ae_name e = attr_name (product_attributes (product_attribute_values p)) ∧
  ae_icon_url e
  = attr_icon_url (product_attributes (product_attribute_values p)) ∧
  ae_sort_order e
  = sort_order_or_0
      (attr_sort_order (product_attributes (product_attribute_values p))).

(** Order and provenance invariant of the index construction. *)
Record IndexOrder (seen : list VariantAttributeValue)
    (m : JsMap.t (AttrEntry (JsMap.t ValueEntry))) : Prop := {
  ord_keys : JsMap.keys m = first_seen (List.map pvv_attr seen);
  ord_vals :
    ∀ k e, JsMap.get m k = Some e →
           JsMap.keys (ae_values e)
           = first_seen
               (List.map pvv_val
                  (List.filter (fun q => String.eqb (pvv_attr q) k) seen));
  ord_first :
    ∀ k e, JsMap.get m k = Some e →
           ∃ p, FirstOf seen k p ∧ entryDataOf p e;
  ord_val_first :
    ∀ k e vk ve, JsMap.get m k = Some e →
                 JsMap.get (ae_values e) vk = Some ve →
                 ∃ p, FirstPair seen k vk p ∧
                      ve_value ve = value (product_attribute_values p) ∧
                      ve_sort_order ve = 0
}.

(** Ascending order of the sort keys. *)
Definition sortOrderLe {V} (e1 e2 : AttrEntry V) : Prop :=
  ae_sort_order e1 ≤ ae_sort_order e2.

(** ** The single-value selector

    The second [VariantSelector] of the repository (src/unnamed/part_001):
    every variant carries one attribute value, and attributes and values
    come from two further queries.  The field names of its interfaces are
    prefixed, since they coincide with those of the first selector. *)

Module SingleValueSelector.

Record Attribute := {
  a_id : string;
  a_name : string;
  a_icon_url : option string
}.

Record AttributeValue := {
  av_id : string;
  av_attribute_id : string;
  av_value : string
}.

Record ProductVariant := {
  pv_id : string;
  pv_product_id : string;
  pv_attribute_value_id : string;
  pv_price : Z;
  pv_stock_quantity : Z;
  pv_is_available : bool;
  pv_image_urls : option (list string)
}.

(** [variants.map(v => v.attribute_value_id)] and [ids.includes(x)] *)
Definition variantValueIds (variants : list ProductVariant) : list string :=
  List.map pv_attribute_value_id variants.

Definition includes (ids : list string) (x : string) : bool :=
  existsb (fun y => String.eqb y x) ids.

Definition availableAttributes (variants : option (list ProductVariant))
    (attributeValues : option (list AttributeValue))
    (attributes : option (list Attribute)) : list Attribute :=
  match variants, attributeValues, attributes with
  | Some vs, Some avs, Some attrs =>
      let ids := variantValueIds vs in
      let attributeIds : gset string :=
        fold_left (fun s v => {[av_attribute_id v]} ∪ s)
          (List.filter (fun v => includes ids (av_id v)) avs) ∅ in
      List.filter (fun a => bool_decide (a_id a ∈ attributeIds)) attrs
  | _, _, _ => []
  end.

Definition getValuesForAttribute (variants : option (list ProductVariant))
    (attributeValues : option (list AttributeValue))
    (attributeId : string) : list AttributeValue :=
  match variants, attributeValues with
  | Some vs, Some avs =>
      let ids := variantValueIds vs in
      List.filter
        (fun v => String.eqb (av_attribute_id v) attributeId &&
                  includes ids (av_id v))
        avs
  | _, _ => []
  end.

(** [variants?.find(v => v.attribute_value_id === valueId)] *)
Definition getVariantForValue (variants : option (list ProductVariant))
    (valueId : string) : option ProductVariant :=
  match variants with
  | Some vs =>
      List.find (fun v => String.eqb (pv_attribute_value_id v) valueId) vs
  | None => None
  end.

(** The new selection given to [setSelectedValues] and the arguments of
    [onVariantChange]. *)
Record Selection := {
  newSelected : gmap string string;
  reportedVariant : option ProductVariant;
  reportedAttributeName : string;
  reportedValueName : string
}.

Definition handleSelect (variants : option (list ProductVariant))
    (attributeValues : option (list AttributeValue))
    (attributes : option (list Attribute))
    (selectedValues : gmap string string)
    (attributeId valueId : string) : Selection :=
  let variant := getVariantForValue variants valueId in
  let value :=
    match attributeValues with
    | Some avs => List.find (fun v => String.eqb (av_id v) valueId) avs
    | None => None
    end in
  let attr :=
    match attributes with
    | Some attrs => List.find (fun a => String.eqb (a_id a) attributeId) attrs
    | None => None
    end in
  {| newSelected := <[attributeId := valueId]> selectedValues;
     reportedVariant := variant;
     reportedAttributeName :=
       match attr with Some a => a_name a | None => "" end;
     reportedValueName :=
       match value with Some v => av_value v | None => "" end |}.

(** The auto-select effect: [None] when it does not call [handleSelect]. *)
Definition autoSelectEffect (variants : option (list ProductVariant))
    (attributeValues : option (list AttributeValue))
    (attributes : option (list Attribute))
    (selectedValues : gmap string string) : option Selection :=
  match availableAttributes variants attributeValues attributes with
  | [a] =>
      if (length (map_to_list selectedValues) =? 0)%nat then
        match getValuesForAttribute variants attributeValues (a_id a) with
        | v0 :: _ =>
            Some (handleSelect variants attributeValues attributes
                    selectedValues (a_id a) (av_id v0))
        | [] => None
        end
      else None
  | _ => None
  end.

(** A small catalog: one colour attribute with two values, one of which
    has a variant. *)
Definition colour := {| a_id := "color"; a_name := "Color"; a_icon_url := None |}.
Definition material :=
  {| a_id := "material"; a_name := "Material"; a_icon_url := None |}.
Definition red := {| av_id := "red"; av_attribute_id := "color"; av_value := "Red" |}.
Definition green :=
  {| av_id := "green"; av_attribute_id := "color"; av_value := "Green" |}.
Definition redVariant :=
  {| pv_id := "v1"; pv_product_id := "p1"; pv_attribute_value_id := "red";
     pv_price := 100; pv_stock_quantity := 3; pv_is_available := true;
     pv_image_urls := None |}.

End SingleValueSelector.

(** ** Basic facts *)

Section ListBool.
Context {A : Type}.
Implicit Types (p : A → bool) (l : list A).

Lemma existsb_elem_of p l :
  existsb p l = true ↔ ∃ x, x ∈ l ∧ p x = true.
Proof.
  rewrite existsb_exists. setoid_rewrite list_elem_of_In. reflexivity.
Qed.

Lemma existsb_false_elem_of p l :
  existsb p l = false ↔ ∀ x, x ∈ l → p x = false.
Proof.
  split.
  - intros H x Hx. destruct (p x) eqn:E; [|done].
    assert (existsb p l = true) by (apply existsb_elem_of; eauto).
    congruence.
  - intros H. destruct (existsb p l) eqn:E; [|done].
    apply existsb_elem_of in E as (x & Hx & Hp).
    rewrite (H x Hx) in Hp. done.
Qed.

Lemma forallb_elem_of p l :
  forallb p l = true ↔ ∀ x, x ∈ l → p x = true.
Proof.
  rewrite forallb_forall. setoid_rewrite list_elem_of_In. reflexivity.
Qed.

Lemma filter_elem_of p l x :
  x ∈ List.filter p l ↔ x ∈ l ∧ p x = true.
Proof. rewrite !list_elem_of_In. apply filter_In. Qed.

Lemma filter_nil_elem_of p l :
  List.filter p l = [] ↔ ∀ x, x ∈ l → p x = false.
Proof.
  split.
  - intros H x Hx. destruct (p x) eqn:E; [|done].
    assert (x ∈ List.filter p l) as Hin by (apply filter_elem_of; done).
    rewrite H in Hin. by apply elem_of_nil in Hin.
  - intros H. induction l as [|y l IH]; [done|].
    simpl. rewrite (H y) by apply list_elem_of_here.
    apply IH. intros x Hx. apply H. by apply list_elem_of_further.
Qed.

(** An element of a filtered list splits the original list around it. *)
Lemma filter_split p l pre' x post' :
  List.filter p l = pre' ++ x :: post' →
  ∃ pre post, l = pre ++ x :: post ∧
              List.filter p pre = pre' ∧ List.filter p post = post'.
Proof.
  revert pre'. induction l as [|y l IH]; intros pre' H; simpl in H.
  - by destruct pre'.
  - destruct (p y) eqn:E.
    + destruct pre' as [|z pre']; simpl in H.
      * injection H as -> Hpost. by exists [], l.
      * injection H as -> Hrest.
        destruct (IH _ Hrest) as (pre & post & -> & Hpre & Hpost).
        exists (z :: pre), post. simpl. rewrite E, Hpre. done.
    + destruct (IH _ H) as (pre & post & -> & Hpre & Hpost).
      exists (y :: pre), post. simpl. rewrite E. done.
Qed.
End ListBool.

Lemma hasAssignment_Carries v k x :
  hasAssignment v k x = true ↔ Carries v k x.
Proof.
  unfold hasAssignment, Carries. rewrite existsb_elem_of.
  split.
  - intros (pvv & Hin & H). apply andb_true_iff in H as [H1 H2].
    apply String.eqb_eq in H1, H2. eauto.
  - intros (pvv & Hin & H1 & H2). exists pvv. split; [done|].
    apply andb_true_iff. by rewrite !String.eqb_eq.
Qed.

Lemma hasAssignment_not_Carries v k x :
  hasAssignment v k x = false ↔ ¬ Carries v k x.
Proof.
  rewrite <- hasAssignment_Carries. destruct (hasAssignment v k x); split; try done.
Qed.

Lemma forallb_entries (p : string → string → bool) (sel : gmap string string) :
  forallb (fun '(k, x) => p k x) (map_to_list sel) = true ↔
  ∀ k x, sel !! k = Some x → p k x = true.
Proof.
  rewrite forallb_elem_of. split.
  - intros H k x Hkx. apply (H (k, x)). by apply elem_of_map_to_list.
  - intros H [k x] Hin. apply H. by apply elem_of_map_to_list.
Qed.

Lemma matchesTarget_Compatible sel a v w :
  matchesTarget sel a v w = true ↔ Compatible sel a v w.
Proof.
  unfold matchesTarget, Compatible.
  destruct (hasAssignment w a v) eqn:E; simpl.
  - rewrite (forallb_entries
               (fun k x => if String.eqb k a then true else hasAssignment w k x)).
    apply hasAssignment_Carries in E. split.
    + intros H. split; [done|]. intros k x Hkx Hne.
      specialize (H k x Hkx). apply String.eqb_neq in Hne. rewrite Hne in H.
      by apply hasAssignment_Carries.
    + intros [_ H] k x Hkx. destruct (String.eqb k a) eqn:Ek; [done|].
      apply hasAssignment_Carries, H; [done|]. by apply String.eqb_neq.
  - apply hasAssignment_not_Carries in E. split; [done|]. intros [H _]. done.
Qed.

Lemma hasExactMatch_CarriesAll variants sel :
  hasExactMatch variants sel = true ↔ ∃ w, w ∈ variants ∧ CarriesAll w sel.
Proof.
  unfold hasExactMatch, CarriesAll. rewrite existsb_elem_of.
  split; intros (w & Hin & H); exists w; (split; [done|]).
  - intros k x Hkx. apply hasAssignment_Carries.
    by apply (proj1 (forallb_entries (hasAssignment w) sel) H).
  - apply (forallb_entries (hasAssignment w)). intros k x Hkx.
    by apply hasAssignment_Carries, H.
Qed.

Lemma hasExactMatch_false variants sel :
  hasExactMatch variants sel = false ↔ ¬ ∃ w, w ∈ variants ∧ CarriesAll w sel.
Proof.
  rewrite <- hasExactMatch_CarriesAll.
  destruct (hasExactMatch variants sel); split; try done.
Qed.

Lemma candidates_nil variants a v :
  List.filter (fun w => hasAssignment w a v) variants = [] ↔
  ¬ ∃ w, w ∈ variants ∧ Carries w a v.
Proof.
  rewrite filter_nil_elem_of. split.
  - intros H (w & Hin & Hc). apply hasAssignment_Carries in Hc.
    rewrite (H w Hin) in Hc. done.
  - intros H w Hin. apply hasAssignment_not_Carries. intros Hc. apply H. eauto.
Qed.

Lemma existsb_hasAssignment variants a v :
  existsb (fun w => hasAssignment w a v) variants = true ↔
  ∃ w, w ∈ variants ∧ Carries w a v.
Proof.
  rewrite existsb_elem_of. by setoid_rewrite hasAssignment_Carries.
Qed.

(** ** Availability resolver *)

Lemma isValueAvailable_Compatible variants sel a v :
  isValueAvailable variants sel a v = true ↔
  ∃ w, w ∈ variants ∧ Compatible sel a v w.
Proof.
  unfold isValueAvailable. rewrite existsb_elem_of.
  by setoid_rewrite matchesTarget_Compatible.
Qed.

Lemma Compatible_empty a v w : Carries w a v → Compatible ∅ a v w.
Proof. intros H. split; [done|]. intros k x Hkx. by rewrite lookup_empty in Hkx. Qed.

(** C2. [isValueAvailable(a, v)] is true exactly when some variant carries
    [(a, v)] and, for every other attribute present in the selection,
    carries the value the selection holds for it; with an empty selection
    every pair that appears on some variant is selectable. *)
Theorem isValueAvailable_sound_complete :
  ∀ (variants : list ProductVariant) (sel : gmap string string) (a v : string),
    (isValueAvailable variants sel a v = true ↔
     ∃ w, w ∈ variants ∧ Carries w a v ∧
          ∀ k x, sel !! k = Some x → k ≠ a → Carries w k x) ∧
    (∀ w, w ∈ variants → Carries w a v →
          isValueAvailable variants ∅ a v = true).
Proof.
  intros variants sel a v. split.
  - apply isValueAvailable_Compatible.
  - intros w Hin Hc. apply isValueAvailable_Compatible.
    exists w. split; [done|]. by apply Compatible_empty.
Qed.

(** C4. [isValueOutOfStock(a, v)] is true exactly when the set of variants
    that carry [(a, v)] and are compatible with every other selected
    attribute is not empty and each of its members has stock zero or is
    flagged unavailable; it is false when no compatible variant exists. *)
Theorem isValueOutOfStock_iff :
  ∀ (variants : list ProductVariant) (sel : gmap string string) (a v : string),
    (isValueOutOfStock variants sel a v = true ↔
     (∃ w, w ∈ variants ∧ Compatible sel a v w) ∧
     (∀ w, w ∈ variants → Compatible sel a v w →
           stock_quantity w = 0 ∨ is_available w = false)) ∧
    ((¬ ∃ w, w ∈ variants ∧ Compatible sel a v w) →
     isValueOutOfStock variants sel a v = false).
Proof.
  intros variants sel a v. unfold isValueOutOfStock.
  set (matching := List.filter (matchesTarget sel a v) variants).
  assert (Hmem : ∀ w, w ∈ matching ↔ w ∈ variants ∧ Compatible sel a v w).
  { intros w. unfold matching. rewrite filter_elem_of.
    by rewrite matchesTarget_Compatible. }
  assert (Hdepleted : ∀ w : ProductVariant,
             (stock_quantity w =? 0) || negb (is_available w) = true ↔
             stock_quantity w = 0 ∨ is_available w = false).
  { intros w. rewrite orb_true_iff, Z.eqb_eq, negb_true_iff. done. }
  destruct (length matching =? 0)%nat eqn:El.
  - apply Nat.eqb_eq, nil_length_inv in El.
    assert (Hnone : ¬ ∃ w, w ∈ variants ∧ Compatible sel a v w).
    { intros (w & Hw). apply Hmem in Hw. rewrite El in Hw.
      by apply elem_of_nil in Hw. }
    split; [|done]. split; [done|]. intros [Hsome _]. done.
  - apply Nat.eqb_neq in El.
    assert (Hsome : ∃ w, w ∈ variants ∧ Compatible sel a v w).
    { destruct matching as [|m0 rest] eqn:Em; [done|].
      exists m0. apply Hmem. apply list_elem_of_here. }
    split; [|done].
    rewrite forallb_elem_of. split.
    + intros H. split; [done|].
      intros w Hin Hc. apply Hdepleted, H, Hmem. done.
    + intros [_ H] w Hw. apply Hmem in Hw as [Hin Hc].
      apply Hdepleted. by apply H.
Qed.

(** ** Click handler: accepted merge and defensive fallback *)

(** C5. When some variant matches the merged selection [S[a := v]] on every
    attribute present in it, [handleSelect] sets the selection to exactly
    that merge: [a] becomes [v] and every other entry of [S] is unchanged. *)
Theorem handleSelect_exact_match_frame :
  ∀ (variants : list ProductVariant) (sel : gmap string string) (a v : string),
    (∃ w, w ∈ variants ∧ CarriesAll w (<[a := v]> sel)) →
    handleSelect variants sel a v = <[a := v]> sel ∧
    handleSelect variants sel a v !! a = Some v ∧
    (∀ k, k ≠ a → handleSelect variants sel a v !! k = sel !! k).
Proof.
  intros variants sel a v Hex.
  apply hasExactMatch_CarriesAll in Hex.
  unfold handleSelect. rewrite Hex. split; [done|]. split.
  - apply lookup_insert_eq.
  - intros k Hne. by apply lookup_insert_ne.
Qed.

Lemma handleSelect_exact_match_frame_witness :
  (∃ w, w ∈ Examples.catalog ∧
        CarriesAll w (<["size" := "s"]> {["color" := "red"]})) ∧
  handleSelect Examples.catalog {["color" := "red"]} "size" "s"
    = <["size" := "s"]> {["color" := "red"]}.
Proof.
  assert (H : ∃ w, w ∈ Examples.catalog ∧
                   CarriesAll w (<["size" := "s"]> {["color" := "red"]})).
  { apply hasExactMatch_CarriesAll. vm_compute. reflexivity. }
  split; [exact H|].
  exact (proj1 (handleSelect_exact_match_frame Examples.catalog
                  {["color" := "red"]} "size" "s" H)).
Defined.

(** C9. When no variant matches the merged selection and no variant carries
    the picked pair, [handleSelect] collapses the selection to the single
    entry [a ↦ v]; the handler is a total function, so nothing is thrown. *)
Theorem handleSelect_zero_candidates :
  ∀ (variants : list ProductVariant) (sel : gmap string string) (a v : string),
    (¬ ∃ w, w ∈ variants ∧ CarriesAll w (<[a := v]> sel)) →
    (¬ ∃ w, w ∈ variants ∧ Carries w a v) →
    handleSelect variants sel a v = {[a := v]}.
Proof.
  intros variants sel a v Hno Hzero.
  apply hasExactMatch_false in Hno. apply candidates_nil in Hzero.
  unfold handleSelect. rewrite Hno, Hzero. done.
Qed.

Lemma handleSelect_zero_candidates_witness :
  handleSelect Examples.catalog {["color" := "red"; "size" := "m"]}
    "color" "green" = {["color" := "green"]}.
Proof.
  apply handleSelect_zero_candidates.
  - apply hasExactMatch_false. vm_compute. reflexivity.
  - apply candidates_nil. vm_compute. reflexivity.
Defined.

(** ** Smart switch *)

Lemma countMatches_overlap sel a c :
  countMatches sel a c = Z.of_nat (overlap sel a c).
Proof.
  unfold countMatches, overlap.
  enough (G : ∀ (l : list (string * string)) (z : Z),
             fold_left
               (fun matches '(key, val) =>
                  if String.eqb key a then matches
                  else if hasAssignment c key val then matches + 1
                  else matches) l z
             = z + Z.of_nat
                     (length
                        (List.filter
                           (fun kv => negb (String.eqb (fst kv) a) &&
                                      hasAssignment c (fst kv) (snd kv)) l))).
  { rewrite G. lia. }
  induction l as [|[k x] l IH]; intros z; simpl.
  - lia.
  - rewrite IH.
    destruct (String.eqb k a); simpl; [done|].
    destruct (hasAssignment c k x); simpl; lia.
Qed.

Lemma countMatches_nonneg sel a c : 0 ≤ countMatches sel a c.
Proof. rewrite countMatches_overlap. lia. Qed.

(** Invariant of the [candidates.forEach] loop: either no candidate beat the
    initial pair, or the result is the first candidate of maximal count. *)
Lemma bestCandidate_loop_spec sel a (l : list ProductVariant) b0 m0 :
  let r := bestCandidate_loop sel a l (b0, m0) in
  (r = (b0, m0) ∧ ∀ c, c ∈ l → countMatches sel a c ≤ m0) ∨
  (∃ pre post,
      l = pre ++ fst r :: post ∧
      snd r = countMatches sel a (fst r) ∧
      m0 < snd r ∧
      (∀ c, c ∈ pre → countMatches sel a c < snd r) ∧
      (∀ c, c ∈ post → countMatches sel a c ≤ snd r)).
Proof.
  revert b0 m0. induction l as [|c l IH]; intros b0 m0; simpl.
  - left. split; [done|]. intros c Hc. by apply elem_of_nil in Hc.
  - unfold bestCandidate_loop in *. simpl.
    destruct (m0 <? countMatches sel a c) eqn:E.
    + apply Z.ltb_lt in E. right.
      destruct (IH c (countMatches sel a c))
        as [[Hr Hle] | (pre & post & Hl & Hm & Hlt & Hpre & Hpost)].
      * rewrite Hr. simpl. exists [], l. repeat split; try done.
        intros c' Hc'. by apply elem_of_nil in Hc'.
      * exists (c :: pre), post. rewrite Hl at 1. repeat split; try done.
        -- lia.
        -- intros c' Hc'. apply elem_of_cons in Hc' as [->|Hc']; [lia|].
           by apply Hpre.
    + apply Z.ltb_ge in E.
      destruct (IH b0 m0)
        as [[Hr Hle] | (pre & post & Hl & Hm & Hlt & Hpre & Hpost)].
      * left. split; [done|].
        intros c' Hc'. apply elem_of_cons in Hc' as [->|Hc']; [done|].
        by apply Hle.
      * right. exists (c :: pre), post. rewrite Hl at 1.
        repeat split; try done.
        intros c' Hc'. apply elem_of_cons in Hc' as [->|Hc']; [lia|].
        by apply Hpre.
Qed.

Section SelectionOfVariant.

Let assign (sel : gmap string string) (pvv : VariantAttributeValue) :=
  <[attribute_id (product_attribute_values pvv)
      := val_id (product_attribute_values pvv)]> sel.

Lemma fold_assign_lookup_Some (l : list VariantAttributeValue)
    (init : gmap string string) k x :
  fold_left assign l init !! k = Some x →
  (∃ pvv, pvv ∈ l ∧ attribute_id (product_attribute_values pvv) = k ∧
          val_id (product_attribute_values pvv) = x) ∨
  init !! k = Some x.
Proof.
  revert init. induction l as [|p l IH]; intros init H; simpl in H.
  - by right.
  - destruct (IH _ H) as [(pvv & Hin & Hk & Hx) | Hinit].
    + left. exists pvv. split; [by apply list_elem_of_further|done].
    + unfold assign in Hinit.
      destruct (decide (attribute_id (product_attribute_values p) = k))
        as [Heq|Hne].
      * rewrite Heq, lookup_insert_eq in Hinit. injection Hinit as Hx.
        left. exists p. split; [apply list_elem_of_here|done].
      * rewrite lookup_insert_ne in Hinit by done. by right.
Qed.

Lemma fold_assign_lookup_is_Some (l : list VariantAttributeValue)
    (init : gmap string string) k :
  (∃ pvv, pvv ∈ l ∧ attribute_id (product_attribute_values pvv) = k) ∨
  is_Some (init !! k) →
  is_Some (fold_left assign l init !! k).
Proof.
  revert init. induction l as [|p l IH]; intros init H; simpl.
  - destruct H as [(pvv & Hin & _)|H]; [by apply elem_of_nil in Hin|done].
  - apply IH. destruct H as [(pvv & Hin & Hk)|H].
    + apply elem_of_cons in Hin as [->|Hin].
      * right. unfold assign. rewrite Hk, lookup_insert_eq. eauto.
      * left. eauto.
    + right. unfold assign.
      destruct (decide (attribute_id (product_attribute_values p) = k))
        as [Heq|Hne].
      * rewrite Heq, lookup_insert_eq. eauto.
      * by rewrite lookup_insert_ne.
Qed.

End SelectionOfVariant.

Lemma selection_of_variant_Carries c k x :
  selection_of_variant c !! k = Some x → Carries c k x.
Proof.
  intros H. apply fold_assign_lookup_Some in H as [H|H]; [done|].
  by rewrite lookup_empty in H.
Qed.

Lemma oneValuePerAttribute_functional c k x y :
  oneValuePerAttribute c = true → Carries c k x → Carries c k y → x = y.
Proof.
  unfold oneValuePerAttribute. rewrite forallb_elem_of.
  intros H (p & Hp & Hpk & Hpx) (q & Hq & Hqk & Hqy).
  specialize (H p Hp). rewrite forallb_elem_of in H. specialize (H q Hq).
  rewrite Hpk, Hqk, Hpx, Hqy, String.eqb_refl in H. simpl in H.
  by apply String.eqb_eq.
Qed.

Lemma selection_of_variant_lookup c k x :
  oneValuePerAttribute c = true →
  selection_of_variant c !! k = Some x ↔ Carries c k x.
Proof.
  intros Hone. split; [apply selection_of_variant_Carries|].
  intros Hc.
  assert (is_Some (selection_of_variant c !! k)) as [y Hy].
  { apply fold_assign_lookup_is_Some. left.
    destruct Hc as (pvv & Hin & Hk & _). eauto. }
  rewrite Hy. f_equal.
  apply selection_of_variant_Carries in Hy.
  by apply (oneValuePerAttribute_functional c k).
Qed.

(** The smart-switch branch: the new selection is built from the first
    candidate, in catalog order, of maximal overlap. *)
Lemma handleSelect_smart_switch_winner variants sel a v :
  hasExactMatch variants (<[a := v]> sel) = false →
  (∃ w, w ∈ variants ∧ Carries w a v) →
  ∃ pre c post,
    variants = pre ++ c :: post ∧
    Carries c a v ∧
    (∀ c', c' ∈ variants → Carries c' a v →
           (overlap sel a c' ≤ overlap sel a c)%nat) ∧
    (∀ c', c' ∈ pre → Carries c' a v →
           (overlap sel a c' < overlap sel a c)%nat) ∧
    handleSelect variants sel a v = selection_of_variant c.
Proof.
  intros Hno Hsome. unfold handleSelect. rewrite Hno.
  set (cands := List.filter (fun w => hasAssignment w a v) variants).
  assert (Hcands : ∀ w, w ∈ cands ↔ w ∈ variants ∧ Carries w a v).
  { intros w. unfold cands. rewrite filter_elem_of.
    by rewrite hasAssignment_Carries. }
  destruct cands as [|c0 rest] eqn:Ec.
  { exfalso. destruct Hsome as (w & Hw). apply Hcands in Hw.
    by apply elem_of_nil in Hw. }
  pose proof (bestCandidate_loop_spec sel a (c0 :: rest) c0 (-1)) as Hloop.
  cbv zeta in Hloop.
  set (r := bestCandidate_loop sel a (c0 :: rest) (c0, -1)) in *.
  destruct Hloop as [[_ Hle] | (pre' & post' & Hl & Hm & _ & Hpre & Hpost)].
  { exfalso. specialize (Hle c0 (list_elem_of_here _ _)).
    pose proof (countMatches_nonneg sel a c0). lia. }
  rewrite <- Ec in Hl. unfold cands in Hl.
  destruct (filter_split _ _ _ _ _ Hl) as (pre & post & Hv & Hfpre & Hfpost).
  assert (Hbest : fst r ∈ c0 :: rest).
  { rewrite <- Ec. unfold cands. rewrite Hl. apply elem_of_app. right. apply list_elem_of_here. }
  apply Hcands in Hbest as [Hbin Hbc].
  exists pre, (fst r), post. repeat split; try done.
  - intros c' Hin Hc'.
    assert (Hc'c : c' ∈ pre' ++ fst r :: post').
    { rewrite <- Hl. apply filter_elem_of. split; [done|].
      by apply hasAssignment_Carries. }
    rewrite Hm in Hpre, Hpost. rewrite !countMatches_overlap in *.
    apply elem_of_app in Hc'c as [Hc'c|Hc'c].
    + specialize (Hpre c' Hc'c). rewrite countMatches_overlap in Hpre. lia.
    + apply elem_of_cons in Hc'c as [->|Hc'c]; [lia|].
      specialize (Hpost c' Hc'c). rewrite countMatches_overlap in Hpost. lia.
  - intros c' Hin Hc'.
    assert (Hc'p : c' ∈ pre').
    { rewrite <- Hfpre. apply filter_elem_of. split; [done|].
      by apply hasAssignment_Carries. }
    specialize (Hpre c' Hc'p). rewrite Hm, !countMatches_overlap in Hpre. lia.
Qed.

(** C1. When the merged selection has no exact match but some variant
    carries the picked pair, [handleSelect] replaces the selection with the
    assignments of the candidate [c] which, among the variants carrying the
    picked pair, matches the greatest number of the other selected values,
    the first such candidate in catalog order; the new selection maps the
    picked attribute to the picked value.  Variants satisfy the data-model
    invariant of at most one value per attribute. *)
Theorem handleSelect_smart_switch_best_match :
  ∀ (variants : list ProductVariant) (sel : gmap string string) (a v : string),
    forallb oneValuePerAttribute variants = true →
    (¬ ∃ w, w ∈ variants ∧ CarriesAll w (<[a := v]> sel)) →
    (∃ w, w ∈ variants ∧ Carries w a v) →
    ∃ pre c post,
      variants = pre ++ c :: post ∧
      Carries c a v ∧
      (∀ c', c' ∈ variants → Carries c' a v →
             (overlap sel a c' ≤ overlap sel a c)%nat) ∧
      (∀ c', c' ∈ pre → Carries c' a v →
             (overlap sel a c' < overlap sel a c)%nat) ∧
      (∀ k x, handleSelect variants sel a v !! k = Some x ↔ Carries c k x) ∧
      handleSelect variants sel a v !! a = Some v.
Proof.
  intros variants sel a v Hwf Hno Hsome.
  apply hasExactMatch_false in Hno.
  destruct (handleSelect_smart_switch_winner variants sel a v Hno Hsome)
    as (pre & c & post & Hv & Hc & Hmax & Hfirst & Hsel).
  assert (Hone : oneValuePerAttribute c = true).
  { rewrite forallb_elem_of in Hwf. apply Hwf. rewrite Hv.
    apply elem_of_app. right. apply list_elem_of_here. }
  exists pre, c, post. repeat split; try done.
  - rewrite Hsel. by apply selection_of_variant_lookup.
  - rewrite Hsel. by apply selection_of_variant_lookup.
  - rewrite Hsel. by apply selection_of_variant_lookup.
Qed.

Lemma handleSelect_smart_switch_best_match_witness :
  ∃ pre c post,
    Examples.fabrics = pre ++ c :: post ∧
    Carries c "color" "blue" ∧
    (∀ c', c' ∈ Examples.fabrics → Carries c' "color" "blue" →
           (overlap Examples.redSCotton_selection "color" c'
            ≤ overlap Examples.redSCotton_selection "color" c)%nat) ∧
    (∀ c', c' ∈ pre → Carries c' "color" "blue" →
           (overlap Examples.redSCotton_selection "color" c'
            < overlap Examples.redSCotton_selection "color" c)%nat) ∧
    (∀ k x,
        handleSelect Examples.fabrics Examples.redSCotton_selection
          "color" "blue" !! k = Some x ↔ Carries c k x) ∧
    handleSelect Examples.fabrics Examples.redSCotton_selection
      "color" "blue" !! "color" = Some "blue".
Proof.
  apply handleSelect_smart_switch_best_match.
  - vm_compute. reflexivity.
  - apply hasExactMatch_false. vm_compute. reflexivity.
  - apply existsb_hasAssignment. vm_compute. reflexivity.
Defined.

(** On the three-attribute catalog the tie between the second and the third
    variant goes to the second. *)
Example handleSelect_tie_first :
  handleSelect Examples.fabrics Examples.redSCotton_selection "color" "blue"
  = selection_of_variant Examples.blueMCotton.
Proof. vm_compute. reflexivity. Qed.

(** ** JavaScript [Map] operations *)

Section JsMapFacts.
Context {V : Type}.
Implicit Types (m : JsMap.t V) (k : string) (x : V).

Lemma JsMap_has_keys m k : JsMap.has m k = true ↔ k ∈ JsMap.keys m.
Proof.
  unfold JsMap.has, JsMap.keys. rewrite existsb_elem_of, list_elem_of_In.
  rewrite in_map_iff. setoid_rewrite String.eqb_eq.
  setoid_rewrite list_elem_of_In.
  split; intros (pr & ? & ?); exists pr; done.
Qed.

Lemma JsMap_has_get m k : JsMap.has m k = true ↔ is_Some (JsMap.get m k).
Proof.
  induction m as [|[k' y] m IH]; simpl.
  - split; [done|]. by intros [? ?].
  - destruct (String.eqb k' k); simpl; [|done]. split; eauto.
Qed.

Lemma JsMap_get_keys m k : is_Some (JsMap.get m k) ↔ k ∈ JsMap.keys m.
Proof. by rewrite <- JsMap_has_get, JsMap_has_keys. Qed.

Lemma JsMap_get_set m k x k' :
  JsMap.get (JsMap.set m k x) k' =
  if decide (k' = k) then Some x else JsMap.get m k'.
Proof.
  induction m as [|[k0 y] m IH]; simpl.
  - destruct (String.eqb_spec k k'); case_decide; congruence.
  - destruct (String.eqb_spec k0 k) as [->|Hne]; simpl.
    + destruct (String.eqb_spec k k'); case_decide; congruence.
    + rewrite IH. destruct (String.eqb_spec k0 k'); case_decide; congruence.
Qed.

Lemma JsMap_keys_set_fresh m k x :
  JsMap.has m k = false → JsMap.keys (JsMap.set m k x) = JsMap.keys m ++ [k].
Proof.
  induction m as [|[k0 y] m IH]; simpl; [done|].
  destruct (String.eqb k0 k); simpl; [done|].
  intros H. by rewrite IH.
Qed.

Lemma JsMap_get_update m k (f : V → V) k' :
  JsMap.get (JsMap.update m k f) k' =
  if decide (k' = k) then f <$> JsMap.get m k' else JsMap.get m k'.
Proof.
  induction m as [|[k0 y] m IH]; simpl.
  - by case_decide.
  - destruct (String.eqb_spec k0 k) as [->|Hne]; simpl.
    + destruct (String.eqb_spec k k'); case_decide; simpl; congruence.
    + rewrite IH. destruct (String.eqb_spec k0 k'); case_decide; congruence.
Qed.

Lemma JsMap_keys_update m k (f : V → V) :
  JsMap.keys (JsMap.update m k f) = JsMap.keys m.
Proof.
  induction m as [|[k0 y] m IH]; simpl; [done|].
  destruct (String.eqb k0 k); simpl; [done|]. by rewrite IH.
Qed.

Lemma JsMap_get_elem_of m k x : JsMap.get m k = Some x → (k, x) ∈ m.
Proof.
  induction m as [|[k0 y] m IH]; simpl; [done|].
  destruct (String.eqb_spec k0 k) as [->|Hne].
  - intros [= ->]. apply list_elem_of_here.
  - intros H. apply list_elem_of_further. by apply IH.
Qed.

Lemma JsMap_elem_of_get m k x :
  NoDup (JsMap.keys m) → (k, x) ∈ m → JsMap.get m k = Some x.
Proof.
  induction m as [|[k0 y] m IH]; simpl; intros Hnd Hin.
  - by apply elem_of_nil in Hin.
  - apply NoDup_cons in Hnd as [Hnotin Hnd].
    apply elem_of_cons in Hin as [Heq|Hin].
    + inversion Heq; subst. by rewrite String.eqb_refl.
    + destruct (String.eqb_spec k0 k) as [->|Hne]; [|by apply IH].
      exfalso. apply Hnotin. unfold JsMap.keys.
      apply list_elem_of_In, in_map_iff. exists (k, x).
      split; [done|]. by apply list_elem_of_In.
Qed.

Lemma JsMap_elem_of_values m x :
  x ∈ JsMap.values m ↔ ∃ k, (k, x) ∈ m.
Proof.
  unfold JsMap.values. rewrite list_elem_of_In, in_map_iff. split.
  - intros ([k y] & Hy & Hin). simpl in Hy. subst.
    exists k. by apply list_elem_of_In.
  - intros (k & Hin). exists (k, x). split; [done|]. by apply list_elem_of_In.
Qed.
End JsMapFacts.

(** ** Attribute index builder *)

Section IndexStep.
Variable p : VariantAttributeValue.

Let newValue : ValueEntry :=
  {| ve_id := pvv_val p;
     ve_value := value (product_attribute_values p);
     ve_sort_order := 0 |}.

Let newEntry : AttrEntry (JsMap.t ValueEntry) :=
  {| ae_id := pvv_attr p;
     ae_name := attr_name (product_attributes (product_attribute_values p));
     ae_icon_url :=
       attr_icon_url (product_attributes (product_attribute_values p));
     ae_sort_order :=
       sort_order_or_0
         (attr_sort_order (product_attributes (product_attribute_values p)));
     ae_values := [] |}.

Let addValue (attrEntry : AttrEntry (JsMap.t ValueEntry)) :=
  if negb (JsMap.has (ae_values attrEntry) (pvv_val p)) then
    {| ae_id := ae_id attrEntry;
       ae_name := ae_name attrEntry;
       ae_icon_url := ae_icon_url attrEntry;
       ae_sort_order := ae_sort_order attrEntry;
       ae_values := JsMap.set (ae_values attrEntry) (pvv_val p) newValue |}
  else attrEntry.

Lemma addValue_id e : ae_id (addValue e) = ae_id e.
Proof. unfold addValue. by destruct (JsMap.has _ _). Qed.

Lemma addValue_get e vk :
  JsMap.get (ae_values (addValue e)) vk =
  if decide (vk = pvv_val p)
  then Some (default newValue (JsMap.get (ae_values e) (pvv_val p)))
  else JsMap.get (ae_values e) vk.
Proof.
  unfold addValue. destruct (JsMap.has (ae_values e) (pvv_val p)) eqn:E; simpl.
  - apply JsMap_has_get in E as [y Hy]. case_decide; [|done].
    subst. by rewrite Hy.
  - rewrite JsMap_get_set. case_decide; [|done].
    destruct (JsMap.get (ae_values e) (pvv_val p)) eqn:G; [|done].
    assert (JsMap.has (ae_values e) (pvv_val p) = true)
      by (apply JsMap_has_get; eauto).
    congruence.
Qed.

Lemma addValue_keys_nodup e :
  NoDup (JsMap.keys (ae_values e)) →
  NoDup (JsMap.keys (ae_values (addValue e))).
Proof.
  intros Hnd. unfold addValue.
  destruct (JsMap.has (ae_values e) (pvv_val p)) eqn:E; simpl; [done|].
  rewrite JsMap_keys_set_fresh by done.
  apply NoDup_app. split; [done|]. split.
  - intros k Hk Hk'. apply list_elem_of_singleton in Hk'. subst.
    apply JsMap_has_keys in Hk. congruence.
  - apply NoDup_singleton.
Qed.

Lemma index_step_get m k :
  JsMap.get (index_step m p) k =
  if decide (k = pvv_attr p)
  then Some (addValue (default newEntry (JsMap.get m (pvv_attr p))))
  else JsMap.get m k.
Proof.
  unfold index_step. fold (pvv_attr p) (pvv_val p). fold newValue newEntry.
  change (fun attrEntry : AttrEntry (JsMap.t ValueEntry) =>
            if negb (JsMap.has (ae_values attrEntry) (pvv_val p))
            then _ else attrEntry) with addValue.
  rewrite JsMap_get_update.
  destruct (JsMap.has m (pvv_attr p)) eqn:E; simpl.
  - case_decide; [|done]. subst.
    apply JsMap_has_get in E as [y Hy]. by rewrite Hy.
  - rewrite JsMap_get_set. case_decide; [|done]. simpl.
    destruct (JsMap.get m (pvv_attr p)) eqn:G; [|done].
    assert (JsMap.has m (pvv_attr p) = true) by (apply JsMap_has_get; eauto).
    congruence.
Qed.

Lemma index_step_keys_nodup m :
  NoDup (JsMap.keys m) → NoDup (JsMap.keys (index_step m p)).
Proof.
  intros Hnd. unfold index_step. rewrite JsMap_keys_update.
  fold (pvv_attr p).
  destruct (JsMap.has m (pvv_attr p)) eqn:E; simpl; [done|].
  rewrite JsMap_keys_set_fresh by done.
  apply NoDup_app. split; [done|]. split.
  - intros k Hk Hk'. apply list_elem_of_singleton in Hk'. subst.
    apply JsMap_has_keys in Hk. congruence.
  - apply NoDup_singleton.
Qed.

Lemma index_step_inv seen m :
  IndexInv seen m → IndexInv (seen ++ [p]) (index_step m p).
Proof.
  intros [Hnd Hattr Hid Hvnd Hvid Hvseen].
  set (e0 := default newEntry (JsMap.get m (pvv_attr p))).
  assert (He0id : ae_id e0 = pvv_attr p).
  { unfold e0. destruct (JsMap.get m (pvv_attr p)) eqn:G; simpl; eauto. }
  assert (He0nd : NoDup (JsMap.keys (ae_values e0))).
  { unfold e0. destruct (JsMap.get m (pvv_attr p)) eqn:G; simpl; eauto.
    apply NoDup_nil_2. }
  assert (He0vid : ∀ vk ve,
             JsMap.get (ae_values e0) vk = Some ve → ve_id ve = vk).
  { unfold e0. destruct (JsMap.get m (pvv_attr p)) eqn:G; simpl; eauto.
    done. }
  assert (He0seen : ∀ vk,
             is_Some (JsMap.get (ae_values e0) vk) ↔
             ∃ q, q ∈ seen ∧ pvv_attr q = pvv_attr p ∧ pvv_val q = vk).
  { intros vk. unfold e0.
    destruct (JsMap.get m (pvv_attr p)) eqn:G; simpl; [by apply Hvseen|].
    split; [by intros [? ?]|]. intros (q & Hq & Hqa & _). exfalso.
    assert (is_Some (JsMap.get m (pvv_attr p))) as [? ?]
      by (apply Hattr; eauto).
    congruence. }
  assert (Hlast : ∀ q, q ∈ seen ++ [p] ↔ q ∈ seen ∨ q = p).
  { intros q. rewrite elem_of_app, list_elem_of_singleton. done. }
  fold e0 in He0id, He0nd, He0vid, He0seen.
  split.
  - by apply index_step_keys_nodup.
  - intros k. rewrite index_step_get. case_decide as Hk.
    + subst k. split; [|eauto]. intros _. exists p. rewrite Hlast. eauto.
    + rewrite Hattr. split; intros (q & Hq & Hqa).
      * exists q. rewrite Hlast. eauto.
      * apply Hlast in Hq as [Hq| ->]; [eauto|done].
  - intros k e. rewrite index_step_get. case_decide as Hk; [|apply Hid].
    intros [= <-]. rewrite addValue_id. subst k. exact He0id.
  - intros k e. rewrite index_step_get. case_decide as Hk; [|apply Hvnd].
    intros [= <-]. apply addValue_keys_nodup. exact He0nd.
  - intros k e vk ve. rewrite index_step_get.
    case_decide as Hk; [|apply Hvid].
    intros [= <-]. rewrite addValue_get. case_decide as Hv; [|apply He0vid].
    subst vk. intros [= <-]. fold e0.
    destruct (JsMap.get (ae_values e0) (pvv_val p)) eqn:G; simpl;
      [|reflexivity].
    by apply He0vid.
  - intros k e vk. rewrite index_step_get. case_decide as Hk.
    + intros [= <-]. subst k. rewrite addValue_get. case_decide as Hv.
      * subst vk. split; [|eauto]. intros _. exists p. rewrite Hlast. eauto.
      * fold e0. rewrite He0seen. split; intros (q & Hq & Hqa & Hqv).
        -- exists q. rewrite Hlast. eauto.
        -- apply Hlast in Hq as [Hq| ->]; [eauto|done].
    + intros He. rewrite (Hvseen _ _ _ He).
      split; intros (q & Hq & Hqa & Hqv).
      * exists q. rewrite Hlast. eauto.
      * apply Hlast in Hq as [Hq| ->]; [eauto|done].
Qed.

End IndexStep.

Lemma IndexInv_nil : IndexInv [] [].
Proof.
  split; simpl; try done.
  - apply NoDup_nil_2.
  - intros k. split; [by intros [? ?]|].
    intros (q & Hq & _). by apply elem_of_nil in Hq.
Qed.

Lemma fold_index_step_inv l seen m :
  IndexInv seen m → IndexInv (seen ++ l) (fold_left index_step l m).
Proof.
  revert seen m. induction l as [|p l IH]; intros seen m Hinv; simpl.
  - by rewrite app_nil_r.
  - replace (seen ++ p :: l) with ((seen ++ [p]) ++ l)
      by (by rewrite <- app_assoc).
    apply IH. by apply index_step_inv.
Qed.

Lemma build_attributesMap_inv variants :
  IndexInv (flat_map product_variant_values variants)
    (build_attributesMap variants).
Proof.
  unfold build_attributesMap.
  enough (G : ∀ seen m,
             IndexInv seen m →
             IndexInv (seen ++ flat_map product_variant_values variants)
               (fold_left
                  (fun m variant =>
                     fold_left index_step (product_variant_values variant) m)
                  variants m)).
  { apply (G [] []), IndexInv_nil. }
  induction variants as [|w variants IH]; intros seen m Hinv; simpl.
  - by rewrite app_nil_r.
  - rewrite app_assoc. apply IH. by apply fold_index_step_inv.
Qed.

Lemma elem_of_all_assignments variants p :
  p ∈ flat_map product_variant_values variants ↔
  ∃ w, w ∈ variants ∧ p ∈ product_variant_values w.
Proof.
  rewrite list_elem_of_In, in_flat_map.
  setoid_rewrite list_elem_of_In. reflexivity.
Qed.

Section Sorting.
Context {V : Type}.

Lemma sort_insert_Permutation (a : AttrEntry V) l :
  Permutation (sort_insert a l) (a :: l).
Proof.
  induction l as [|b l IH]; simpl; [done|].
  destruct (ae_sort_order a <=? ae_sort_order b); [done|].
  rewrite IH. apply perm_swap.
Qed.

Lemma sort_by_sort_order_Permutation (l : list (AttrEntry V)) :
  Permutation (sort_by_sort_order l) l.
Proof.
  induction l as [|a l IH]; simpl; [done|].
  rewrite sort_insert_Permutation. by apply perm_skip.
Qed.
End Sorting.

Lemma ids_of_values {V} (idf : V → string) (m : JsMap.t V) :
  (∀ k y, (k, y) ∈ m → idf y = k) →
  List.map idf (JsMap.values m) = JsMap.keys m.
Proof.
  induction m as [|[k y] m IH]; intros H; simpl; [done|].
  rewrite (H k y) by apply list_elem_of_here. f_equal.
  apply IH. intros k' y' Hin. apply H. by apply list_elem_of_further.
Qed.

Lemma map_ae_id_values_to_array l :
  List.map ae_id (List.map values_to_array l) = List.map ae_id l.
Proof. rewrite List.map_map. done. Qed.

(** Entries of the finished index are the entries of the attribute map. *)
Lemma productAttributes_elem_of variants e' :
  e' ∈ productAttributes (Some variants) ↔
  ∃ e, JsMap.get (build_attributesMap variants) (ae_id e') = Some e ∧
       e' = values_to_array e.
Proof.
  pose proof (build_attributesMap_inv variants) as Hinv.
  unfold productAttributes.
  rewrite list_elem_of_In, in_map_iff. split.
  - intros (e & <- & Hin). exists e. split; [|done].
    apply list_elem_of_In in Hin.
    rewrite sort_by_sort_order_Permutation in Hin.
    apply JsMap_elem_of_values in Hin as [k Hin].
    apply JsMap_elem_of_get in Hin; [|apply Hinv].
    simpl. by rewrite (inv_entry_id _ _ Hinv _ _ Hin).
  - intros (e & Hget & ->). exists e. split; [done|].
    apply list_elem_of_In. rewrite sort_by_sort_order_Permutation.
    apply JsMap_elem_of_values. exists (ae_id (values_to_array e)).
    by apply JsMap_get_elem_of.
Qed.

Lemma productAttributes_ids variants :
  Permutation (List.map ae_id (productAttributes (Some variants)))
    (JsMap.keys (build_attributesMap variants)).
Proof.
  pose proof (build_attributesMap_inv variants) as Hinv.
  unfold productAttributes. rewrite map_ae_id_values_to_array.
  rewrite sort_by_sort_order_Permutation.
  rewrite ids_of_values; [done|].
  intros k y Hin. apply (inv_entry_id _ _ Hinv).
  apply JsMap_elem_of_get; [apply Hinv|done].
Qed.

Lemma productAttributes_has_id variants a :
  a ∈ List.map ae_id (productAttributes (Some variants)) ↔
  HasAttribute variants a.
Proof.
  pose proof (build_attributesMap_inv variants) as Hinv.
  rewrite productAttributes_ids, <- JsMap_get_keys.
  rewrite (inv_attr_seen _ _ Hinv). unfold HasAttribute.
  setoid_rewrite elem_of_all_assignments. split.
  - intros (p & (w & Hw & Hp) & Ha). by exists w, p.
  - intros (w & p & Hw & Hp & Ha). exists p. eauto.
Qed.

Lemma productAttributes_value_ids variants e' :
  e' ∈ productAttributes (Some variants) →
  NoDup (List.map ve_id (ae_values e')) ∧
  ∀ x, x ∈ List.map ve_id (ae_values e') ↔ AppearsOn variants (ae_id e') x.
Proof.
  pose proof (build_attributesMap_inv variants) as Hinv.
  intros He'. apply productAttributes_elem_of in He' as (e & Hget & ->).
  simpl in *.
  assert (Hids : List.map ve_id (JsMap.values (ae_values e))
                 = JsMap.keys (ae_values e)).
  { apply ids_of_values. intros k y Hin.
    apply (inv_val_id _ _ Hinv _ _ _ _ Hget).
    apply JsMap_elem_of_get; [|done]. apply (inv_vals_nodup _ _ Hinv _ _ Hget). }
  rewrite Hids. split.
  - apply (inv_vals_nodup _ _ Hinv _ _ Hget).
  - intros x. rewrite <- JsMap_get_keys.
    rewrite (inv_val_seen _ _ Hinv _ _ x Hget). unfold AppearsOn.
    setoid_rewrite elem_of_all_assignments. split.
    + intros (p & (w & Hw & Hp) & Ha & Hx). by exists w, p.
    + intros (w & p & Hw & Hp & Ha & Hx). exists p. eauto.
Qed.

Lemma elem_of_index_pairs index a x :
  (a, x) ∈ index_pairs index ↔
  ∃ e, e ∈ index ∧ ae_id e = a ∧ x ∈ List.map ve_id (ae_values e).
Proof.
  unfold index_pairs. rewrite list_elem_of_In, in_flat_map. split.
  - intros (e & He & Hin). apply in_map_iff in Hin as (val & [= <- <-] & Hval).
    exists e. split; [by apply list_elem_of_In|]. split; [done|].
    apply list_elem_of_In, in_map_iff. eauto.
  - intros (e & He & <- & Hin).
    apply list_elem_of_In, in_map_iff in Hin as (val & <- & Hval).
    exists e. split; [by apply list_elem_of_In|].
    apply in_map_iff. eauto.
Qed.

Lemma NoDup_index_pairs index :
  NoDup (List.map ae_id index) →
  (∀ e, e ∈ index → NoDup (List.map ve_id (ae_values e))) →
  NoDup (index_pairs index).
Proof.
  induction index as [|e index IH]; intros Hnd Hvals; simpl.
  - apply NoDup_nil_2.
  - simpl in Hnd. apply NoDup_cons in Hnd as [Hnotin Hnd].
    apply NoDup_app. split; [|split].
    + replace (List.map (fun val => (ae_id e, ve_id val)) (ae_values e))
        with (List.map (pair (ae_id e)) (List.map ve_id (ae_values e)))
        by (by rewrite List.map_map).
      apply (NoDup_fmap_2 (pair (ae_id e))).
      apply Hvals, list_elem_of_here.
    + intros [a x] Hin Hin'.
      apply list_elem_of_In, in_map_iff in Hin as (val & [= <- <-] & _).
      apply elem_of_index_pairs in Hin' as (e' & He' & Hid & _).
      apply Hnotin. rewrite <- Hid.
      apply list_elem_of_In, in_map_iff. exists e'.
      split; [done|]. by apply list_elem_of_In.
    + apply IH; [done|]. intros e' He'. apply Hvals.
      by apply list_elem_of_further.
Qed.

(** C7. The derived attribute index contains an attribute exactly when some
    variant carries a value for it, each attribute once; and the pairs it
    lists are exactly the (attribute, value) pairs appearing on some
    variant, each listed once. *)
Theorem productAttributes_complete :
  ∀ (variants : list ProductVariant),
    let index := productAttributes (Some variants) in
    (∀ a, a ∈ List.map ae_id index ↔ HasAttribute variants a) ∧
    NoDup (List.map ae_id index) ∧
    (∀ a x, (a, x) ∈ index_pairs index ↔ AppearsOn variants a x) ∧
    NoDup (index_pairs index).
Proof.
  intros variants index.
  assert (Hnd : NoDup (List.map ae_id index)).
  { unfold index. rewrite productAttributes_ids.
    apply (inv_keys_nodup _ _ (build_attributesMap_inv variants)). }
  split; [apply productAttributes_has_id|]. split; [done|]. split.
  - intros a x. rewrite elem_of_index_pairs. split.
    + intros (e & He & <- & Hx).
      by apply (productAttributes_value_ids variants e He).
    + intros Happ.
      assert (Ha : a ∈ List.map ae_id index).
      { apply productAttributes_has_id.
        destruct Happ as (w & p & Hw & Hp & Hpa & _). by exists w, p. }
      apply list_elem_of_In, in_map_iff in Ha as (e & <- & He).
      apply list_elem_of_In in He.
      exists e. split; [done|]. split; [done|].
      by apply (productAttributes_value_ids variants e He).
  - apply NoDup_index_pairs; [done|].
    intros e He. by apply (productAttributes_value_ids variants e He).
Qed.

(** ** Variant-match effect *)

Lemma truthy_Selected sel k :
  truthy (sel !! k) = true ↔ ∃ x, Selected sel k x.
Proof.
  unfold truthy, Selected. destruct (sel !! k) as [s|]; simpl.
  - rewrite negb_true_iff, String.eqb_neq. split.
    + intros H. by exists s.
    + intros (x & [= ->] & H). done.
  - split; [done|]. by intros (x & H & _).
Qed.

Lemma allAttributesSelected_Full index sel :
  allAttributesSelected index sel = true ↔ FullSelection index sel.
Proof.
  unfold allAttributesSelected, FullSelection. rewrite forallb_elem_of.
  by setoid_rewrite truthy_Selected.
Qed.

Lemma matchesAll_spec index sel w :
  matchesAll index sel w = true ↔
  ∀ e, e ∈ index → ∃ x, sel !! ae_id e = Some x ∧ Carries w (ae_id e) x.
Proof.
  unfold matchesAll. rewrite forallb_elem_of.
  split; intros H e He; specialize (H e He).
  - destruct (sel !! ae_id e) as [x|]; [|done].
    exists x. split; [done|]. by apply hasAssignment_Carries.
  - destruct H as (x & -> & Hc). by apply hasAssignment_Carries.
Qed.

Lemma CarriesAll_matchesAll index sel w :
  FullSelection index sel → CarriesAll w sel → matchesAll index sel w = true.
Proof.
  intros Hfull Hall. apply matchesAll_spec. intros e He.
  destruct (Hfull e He) as (x & Hx & _). exists x. split; [done|].
  by apply Hall.
Qed.

(** [Array.prototype.find] returns the first element that satisfies the
    predicate. *)
Lemma find_first {A} (f : A → bool) (l : list A) m :
  List.find f l = Some m →
  ∃ pre post, l = pre ++ m :: post ∧ f m = true ∧ ∀ w, w ∈ pre → f w = false.
Proof.
  induction l as [|y l IH]; simpl; [done|].
  destruct (f y) eqn:E.
  - intros [= ->]. exists [], l. repeat split; try done.
    intros w Hw. by apply elem_of_nil in Hw.
  - intros H. destruct (IH H) as (pre & post & -> & Hm & Hpre).
    exists (y :: pre), post. repeat split; try done.
    intros w Hw. apply elem_of_cons in Hw as [->|Hw]; [done|]. by apply Hpre.
Qed.

Lemma find_is_Some {A} (f : A → bool) (l : list A) w :
  w ∈ l → f w = true → is_Some (List.find f l).
Proof.
  intros Hin Hf. destruct (List.find f l) eqn:E; [eauto|].
  apply list_elem_of_In in Hin.
  pose proof (find_none f l E w Hin). congruence.
Qed.

Lemma Carries_HasAttribute variants w a v :
  w ∈ variants → Carries w a v → ∃ a', HasAttribute variants a'.
Proof.
  intros Hin (p & Hp & _). exists (pvv_attr p). by exists w, p.
Qed.

Lemma productAttributes_nonempty variants a :
  HasAttribute variants a → productAttributes (Some variants) ≠ [].
Proof.
  intros H. apply productAttributes_has_id in H. intros Heq.
  rewrite Heq in H. by apply elem_of_nil in H.
Qed.

Lemma length_eqb_0 {A} (l : list A) : l ≠ [] → (length l =? 0)%nat = false.
Proof. intros H. apply Nat.eqb_neq. by destruct l. Qed.

(** The effect on a loaded catalog with a non-empty index. *)
Lemma variantMatchEffect_loaded variants sel :
  productAttributes (Some variants) ≠ [] →
  variantMatchEffect (Some variants) sel =
  Some
    (if allAttributesSelected (productAttributes (Some variants)) sel then
       match
         List.find (matchesAll (productAttributes (Some variants)) sel) variants
       with
       | Some matchedVariant =>
           {| rep_variant := Some matchedVariant;
              rep_attributeName :=
                join (List.map ae_name (productAttributes (Some variants)));
              rep_valueName :=
                join (List.map (valueNameOf sel)
                        (productAttributes (Some variants))) |}
       | None => nullReport
       end
     else nullReport).
Proof.
  intros Hne. unfold variantMatchEffect. rewrite (length_eqb_0 _ Hne).
  destruct (allAttributesSelected _ sel); [|done].
  by destruct (List.find _ variants).
Qed.

(** ** Backing variant of the selection produced by a click *)

Lemma handleSelect_backing variants sel a v :
  (∃ w, w ∈ variants ∧ Carries w a v) →
  ∃ w, w ∈ variants ∧
       ((CarriesAll w (<[a := v]> sel) ∧
         handleSelect variants sel a v = <[a := v]> sel) ∨
        (Carries w a v ∧
         handleSelect variants sel a v = selection_of_variant w)).
Proof.
  intros Hsome. destruct (hasExactMatch variants (<[a := v]> sel)) eqn:E.
  - pose proof E as Hex. apply hasExactMatch_CarriesAll in Hex as (w & Hw & Hall).
    exists w. split; [done|]. left. split; [done|].
    unfold handleSelect. by rewrite E.
  - destruct (handleSelect_smart_switch_winner variants sel a v E Hsome)
      as (pre & c & post & Hv & Hc & _ & _ & Hsel).
    exists c. split.
    + rewrite Hv. apply elem_of_app. right. apply list_elem_of_here.
    + by right.
Qed.

(** C10. After [handleSelect(a, v)] with at least one variant carrying the
    picked pair, some variant of the catalog carries every entry of the
    resulting selection: the matching variant in the exact-match branch,
    the winning candidate in the smart-switch branch.  Hence, when the
    resulting selection is full, the variant-match effect reports a
    variant. *)
Theorem handleSelect_selection_is_backed :
  ∀ (variants : list ProductVariant) (sel : gmap string string) (a v : string),
    (∃ w, w ∈ variants ∧ Carries w a v) →
    (∃ w, w ∈ variants ∧
          CarriesAll w (handleSelect variants sel a v) ∧
          ((CarriesAll w (<[a := v]> sel) ∧
            handleSelect variants sel a v = <[a := v]> sel) ∨
           (Carries w a v ∧
            handleSelect variants sel a v = selection_of_variant w))) ∧
    (FullSelection (productAttributes (Some variants))
       (handleSelect variants sel a v) →
     ∃ m r, m ∈ variants ∧
            variantMatchEffect (Some variants) (handleSelect variants sel a v)
              = Some r ∧
            rep_variant r = Some m).
Proof.
  intros variants sel a v Hsome.
  destruct (handleSelect_backing variants sel a v Hsome) as (w & Hw & Hbr).
  assert (Hall : CarriesAll w (handleSelect variants sel a v)).
  { destruct Hbr as [[Hall ->]|[_ ->]]; [done|].
    intros k x. apply selection_of_variant_Carries. }
  split; [by exists w|].
  intros Hfull.
  assert (Hne : productAttributes (Some variants) ≠ []).
  { destruct Hsome as (w' & Hw' & Hc').
    destruct (Carries_HasAttribute variants w' a v Hw' Hc') as (a' & Ha').
    by apply (productAttributes_nonempty variants a'). }
  rewrite (variantMatchEffect_loaded _ _ Hne).
  rewrite (proj2 (allAttributesSelected_Full _ _) Hfull).
  pose proof (CarriesAll_matchesAll _ _ _ Hfull Hall) as Hmatch.
  destruct (find_is_Some _ _ _ Hw Hmatch) as [m Hm].
  rewrite Hm. exists m. eexists. split; [|split; reflexivity].
  apply find_some in Hm as [Hin _]. by apply list_elem_of_In.
Qed.

Lemma handleSelect_selection_is_backed_witness :
  ∃ m r, m ∈ Examples.catalog ∧
         variantMatchEffect (Some Examples.catalog)
           (handleSelect Examples.catalog {["color" := "blue"]} "size" "m")
           = Some r ∧
         rep_variant r = Some m.
Proof.
  apply (handleSelect_selection_is_backed Examples.catalog
           {["color" := "blue"]} "size" "m").
  - apply existsb_hasAssignment. vm_compute. reflexivity.
  - apply allAttributesSelected_Full. vm_compute. reflexivity.
Defined.

(** ** Variant-match resolver on well-formed catalogs *)

Lemma selectionInIndex_spec index sel :
  selectionInIndex index sel = true ↔ SelectionInIndex index sel.
Proof.
  unfold selectionInIndex, SelectionInIndex.
  rewrite (forallb_entries
             (fun k _ =>
                existsb
                  (fun e : AttrEntry (list ValueEntry) =>
                     String.eqb (ae_id e) k) index)).
  assert (Hex : ∀ k,
             existsb
               (fun e : AttrEntry (list ValueEntry) => String.eqb (ae_id e) k)
               index = true ↔
             k ∈ List.map ae_id index).
  { intros k. rewrite existsb_elem_of, list_elem_of_In, in_map_iff.
    setoid_rewrite String.eqb_eq. setoid_rewrite list_elem_of_In.
    split; intros (e & ? & ?); exists e; done. }
  split.
  - intros H k [x Hx]. apply Hex. by apply (H k x).
  - intros H k x Hx. apply Hex, H. eauto.
Qed.

Lemma wellFormedCatalog_elem_of variants w :
  wellFormedCatalog variants = true → w ∈ variants →
  oneValuePerAttribute w = true ∧ consistentRefs w = true.
Proof.
  unfold wellFormedCatalog. rewrite forallb_elem_of. intros H Hw.
  by apply andb_true_iff, H.
Qed.

Lemma consistentRefs_spec w p :
  consistentRefs w = true → p ∈ product_variant_values w →
  attribute_id (product_attribute_values p) = pvv_attr p.
Proof.
  unfold consistentRefs. rewrite forallb_elem_of. intros H Hp.
  by apply String.eqb_eq, H.
Qed.

Lemma Carries_AppearsOn variants w k x :
  consistentRefs w = true → w ∈ variants → Carries w k x →
  AppearsOn variants k x.
Proof.
  intros Hrefs Hw (p & Hp & Hk & Hx). exists w, p.
  repeat split; try done. by rewrite <- (consistentRefs_spec w p).
Qed.

Lemma index_entry_of_id (index : list (AttrEntry (list ValueEntry))) k :
  k ∈ List.map ae_id index → ∃ e, e ∈ index ∧ ae_id e = k.
Proof.
  intros H. apply list_elem_of_In, in_map_iff in H as (e & He & Hin).
  exists e. split; [by apply list_elem_of_In|done].
Qed.

(** A variant accepted by [find] has exactly the selection as its
    assignment set. *)
Lemma matchesAll_AssignmentsEqual variants sel m :
  wellFormedCatalog variants = true →
  SelectionInIndex (productAttributes (Some variants)) sel →
  m ∈ variants →
  matchesAll (productAttributes (Some variants)) sel m = true →
  AssignmentsEqual m sel.
Proof.
  intros Hwf Hdom Hm Hmatch.
  destruct (wellFormedCatalog_elem_of _ _ Hwf Hm) as [Hone Hrefs].
  rewrite matchesAll_spec in Hmatch.
  intros k x. split.
  - intros Hkx.
    destruct (index_entry_of_id _ k (Hdom k (ex_intro _ x Hkx)))
      as (e & He & <-).
    destruct (Hmatch e He) as (y & Hy & Hc). congruence.
  - intros Hc.
    pose proof (Carries_AppearsOn variants m k x Hrefs Hm Hc)
      as (w & p & Hw & Hp & Hpa & _).
    assert (Hk : k ∈ List.map ae_id (productAttributes (Some variants))).
    { apply productAttributes_has_id. by exists w, p. }
    destruct (index_entry_of_id _ k Hk) as (e & He & <-).
    destruct (Hmatch e He) as (y & Hy & Hcy).
    rewrite Hy. f_equal.
    by apply (oneValuePerAttribute_functional m (ae_id e)).
Qed.

Lemma AssignmentsEqual_matchesAll index sel w :
  FullSelection index sel → AssignmentsEqual w sel →
  matchesAll index sel w = true.
Proof.
  intros Hfull Heq. apply CarriesAll_matchesAll; [done|].
  intros k x Hkx. by apply Heq.
Qed.

(** The value names shown for a matched variant are those of the selected
    values, attribute by attribute. *)
Lemma valueNames_chosen variants sel m :
  consistentRefs m = true → m ∈ variants →
  matchesAll (productAttributes (Some variants)) sel m = true →
  ∀ l, (∀ e, e ∈ l → e ∈ productAttributes (Some variants)) →
       ∃ chosen,
         Forall2
           (fun e val => val ∈ ae_values e ∧
                         sel !! ae_id e = Some (ve_id val))
           l chosen ∧
         List.map (valueNameOf sel) l = List.map ve_value chosen.
Proof.
  intros Hrefs Hm Hmatch. rewrite matchesAll_spec in Hmatch.
  induction l as [|e l IH]; intros Hl.
  - exists []. split; [constructor|done].
  - destruct IH as (chosen & Hall & Hnames).
    { intros e' He'. apply Hl. by apply list_elem_of_further. }
    assert (He : e ∈ productAttributes (Some variants))
      by apply Hl, list_elem_of_here.
    destruct (Hmatch e He) as (x & Hx & Hc).
    pose proof (Carries_AppearsOn variants m _ x Hrefs Hm Hc) as Happ.
    apply (productAttributes_value_ids variants e He) in Happ.
    apply list_elem_of_In, in_map_iff in Happ as (val0 & Hid0 & Hin0).
    destruct (List.find (fun v => String.eqb (ve_id v) x) (ae_values e))
      as [val|] eqn:Efind.
    + pose proof (find_some _ _ Efind) as [Hin Hid].
      apply String.eqb_eq in Hid.
      exists (val :: chosen). split.
      * constructor; [|done]. split; [by apply list_elem_of_In|].
        by rewrite Hid.
      * simpl. rewrite <- Hnames. f_equal.
        unfold valueNameOf. by rewrite Hx, Efind.
    + pose proof (find_none _ _ Efind val0 Hin0) as Hno. simpl in Hno.
      rewrite Hid0, String.eqb_refl in Hno. done.
Qed.

(** C3 as stated fails in two ways.  With an empty attribute index the
    effect returns before calling [onVariantChange]: for the catalog made of
    one variant without assignments and the empty selection, the selection
    is full and equals that variant's assignment set, yet nothing is
    reported (likewise for the empty catalog, where a null report is
    claimed).  And a selection that covers the index but also holds an
    attribute outside it gets a variant reported although no variant has
    that selection as its assignment set; the component reaches such a
    state when the colour-only product is loaded after Red and M were
    chosen on the colour/size product. *)
Lemma variantMatchEffect_not_exact :
  (FullSelection (productAttributes (Some [Examples.bare])) ∅ ∧
   AssignmentsEqual Examples.bare ∅ ∧
   variantMatchEffect (Some [Examples.bare]) ∅ = None ∧
   variantMatchEffect (Some []) ∅ = None) ∧
  (selectedAttributes
     (run None [QueryData (Some Examples.catalog);
                Click "color" "red"; Click "size" "m";
                QueryData None;
                QueryData (Some Examples.colours)])
   = Examples.redM_selection ∧
   FullSelection (productAttributes (Some Examples.colours))
     Examples.redM_selection ∧
   (∃ r, variantMatchEffect (Some Examples.colours) Examples.redM_selection
           = Some r ∧
         rep_variant r = Some Examples.redOnly) ∧
   ¬ ∃ w, w ∈ Examples.colours ∧ AssignmentsEqual w Examples.redM_selection).
Proof.
  split; [split; [|split; [|split]]|split; [|split; [|split]]].
  - apply allAttributesSelected_Full. vm_compute. reflexivity.
  - intros k x. rewrite lookup_empty. split; [done|].
    intros Hc. apply hasAssignment_Carries in Hc. vm_compute in Hc. done.
  - vm_compute. reflexivity.
  - vm_compute. reflexivity.
  - vm_compute. reflexivity.
  - apply allAttributesSelected_Full. vm_compute. reflexivity.
  - eexists. split; [vm_compute; reflexivity|reflexivity].
  - intros (w & Hw & Heq).
    assert (Hc : Carries w "size" "m").
    { apply Heq. vm_compute. reflexivity. }
    apply hasAssignment_Carries in Hc.
    assert (Hall : forallb (fun w => negb (hasAssignment w "size" "m"))
                     Examples.colours = true) by (vm_compute; reflexivity).
    rewrite forallb_elem_of in Hall. specialize (Hall w Hw).
    rewrite Hc in Hall. done.
Qed.

(** C3, amended.  When the derived attribute index is empty the effect
    reports nothing.  Otherwise it reports once: the null report with empty
    display strings when the selection is not full or no variant is found,
    never failing.  For a full selection whose attributes all belong to the
    index, on a catalog satisfying the data-model invariants, it reports a
    variant exactly when some variant's assignment set equals the selection;
    the reported variant is the first such variant in catalog order, and the
    display strings are the attribute names and the selected value names
    joined in index order. *)
Theorem variantMatchEffect_full_selection :
  ∀ (variants : list ProductVariant) (sel : gmap string string),
    let index := productAttributes (Some variants) in
    (index = [] → variantMatchEffect (Some variants) sel = None) ∧
    (index ≠ [] →
     ∃ r, variantMatchEffect (Some variants) sel = Some r ∧
          (¬ FullSelection index sel → r = nullReport) ∧
          (rep_variant r = None → r = nullReport) ∧
          (FullSelection index sel →
           wellFormedCatalog variants = true →
           SelectionInIndex index sel →
           ((∃ w, w ∈ variants ∧ AssignmentsEqual w sel) ↔
            is_Some (rep_variant r)) ∧
           (∀ m, rep_variant r = Some m →
                 (∃ pre post,
                     variants = pre ++ m :: post ∧
                     AssignmentsEqual m sel ∧
                     ∀ w, w ∈ pre → ¬ AssignmentsEqual w sel) ∧
                 rep_attributeName r = join (List.map ae_name index) ∧
                 ∃ chosen,
                   Forall2
                     (fun e val => val ∈ ae_values e ∧
                                   sel !! ae_id e = Some (ve_id val))
                     index chosen ∧
                   rep_valueName r = join (List.map ve_value chosen)))).
Proof.
  intros variants sel index. split.
  - intros Hnil. unfold variantMatchEffect. fold index. by rewrite Hnil.
  - intros Hne. rewrite (variantMatchEffect_loaded _ _ Hne). fold index.
    eexists. split; [reflexivity|].
    destruct (allAttributesSelected index sel) eqn:Efull.
    + apply allAttributesSelected_Full in Efull.
      destruct (List.find (matchesAll index sel) variants) as [m|] eqn:Efind.
      * split; [done|]. split; [done|]. intros _ Hwf Hdom. simpl.
        destruct (find_first _ _ _ Efind) as (pre & post & Hv & Hm & Hpre).
        assert (Hin : m ∈ variants).
        { rewrite Hv. apply elem_of_app. right. apply list_elem_of_here. }
        pose proof (matchesAll_AssignmentsEqual _ _ _ Hwf Hdom Hin Hm) as Heq.
        split; [split; [eauto|intros _; by exists m]|].
        intros m' [= <-]. split; [|split; [done|]].
        -- exists pre, post. repeat split; try apply Heq; try done.
           intros w Hw Hweq.
           pose proof (AssignmentsEqual_matchesAll _ _ _ Efull Hweq) as Hwm.
           fold index in Hpre. rewrite (Hpre w Hw) in Hwm. done.
        -- destruct (wellFormedCatalog_elem_of _ _ Hwf Hin) as [_ Hrefs].
           destruct (valueNames_chosen variants sel m Hrefs Hin Hm index)
             as (chosen & Hall & Hnames); [done|].
           exists chosen. split; [done|]. by rewrite Hnames.
      * split; [done|]. split; [done|]. intros _ Hwf Hdom. simpl.
        split; [|done]. split; [|by intros [? ?]].
        intros (w & Hw & Hweq). exfalso.
        pose proof (AssignmentsEqual_matchesAll _ _ _ Efull Hweq) as Hwm.
        apply list_elem_of_In in Hw.
        pose proof (find_none _ _ Efind w Hw) as Hno. congruence.
    + split; [done|]. split; [done|]. intros Hfull.
      apply allAttributesSelected_Full in Hfull. congruence.
Qed.

Lemma variantMatchEffect_full_selection_witness :
  ∃ r, variantMatchEffect (Some Examples.catalog) Examples.blueS_selection
         = Some r ∧
       ((∃ w, w ∈ Examples.catalog ∧
              AssignmentsEqual w Examples.blueS_selection) ↔
        is_Some (rep_variant r)).
Proof.
  assert (Hne : productAttributes (Some Examples.catalog) ≠ [])
    by (vm_compute; discriminate).
  destruct (proj2 (variantMatchEffect_full_selection Examples.catalog
                     Examples.blueS_selection) Hne)
    as (r & Hr & _ & _ & H).
  exists r. split; [exact Hr|].
  apply H.
  - apply allAttributesSelected_Full. vm_compute. reflexivity.
  - vm_compute. reflexivity.
  - apply selectionInIndex_spec. vm_compute. reflexivity.
Defined.

(** On the specification's catalog the full selection Blue/S resolves to the
    third variant, with the names in index order. *)
Example variantMatchEffect_blueS :
  variantMatchEffect (Some Examples.catalog) Examples.blueS_selection
  = Some {| rep_variant := Some Examples.blueS;
            rep_attributeName := "Color, Size";
            rep_valueName := "Blue, S" |}.
Proof. vm_compute. reflexivity. Qed.

(** ** Auto-select effect *)

Section AutoSelect.
Implicit Types (index : list (AttrEntry (list ValueEntry)))
  (sel : gmap string string).

Lemma autoSelect_step_changed_true index sel :
  snd (fold_left autoSelect_step index (sel, true)) = true.
Proof.
  revert sel. induction index as [|e index IH]; intros sel; simpl; [done|].
  destruct (ae_values e) as [|v0 [|? ?]]; try apply IH.
  destruct (negb (truthy (sel !! ae_id e))); apply IH.
Qed.

Lemma autoSelect_step_unchanged index sel :
  snd (fold_left autoSelect_step index (sel, false)) = false →
  fst (fold_left autoSelect_step index (sel, false)) = sel.
Proof.
  revert sel. induction index as [|e index IH]; intros sel; simpl; [done|].
  destruct (ae_values e) as [|v0 [|? ?]]; try apply IH.
  destruct (negb (truthy (sel !! ae_id e))); [|apply IH].
  rewrite autoSelect_step_changed_true. done.
Qed.

(** The effect computes the first component of the loop, whether or not
    [setSelectedAttributes] is called. *)
Lemma autoSelect_fold index sel :
  autoSelect index sel = fst (fold_left autoSelect_step index (sel, false)).
Proof.
  unfold autoSelect. destruct index as [|e index]; [done|].
  change (0 <? length (e :: index))%nat with true. cbv iota.
  destruct (fold_left autoSelect_step (e :: index) (sel, false))
    as [newSelection changed] eqn:E.
  destruct changed; [done|]. simpl.
  pose proof (autoSelect_step_unchanged (e :: index) sel) as H.
  rewrite E in H. symmetry. by apply H.
Qed.

Lemma autoSelect_step_lookup_ne sel ch e k :
  k ≠ ae_id e → fst (autoSelect_step (sel, ch) e) !! k = sel !! k.
Proof.
  intros Hne. simpl. destruct (ae_values e) as [|v0 [|? ?]]; try done.
  destruct (negb (truthy (sel !! ae_id e))); [|done].
  simpl. by rewrite lookup_insert_ne.
Qed.

Lemma autoSelect_step_Selected sel ch e k x :
  Selected sel k x → Selected (fst (autoSelect_step (sel, ch) e)) k x.
Proof.
  intros [Hkx Hne]. split; [|done].
  destruct (decide (k = ae_id e)) as [->|Hk];
    [|by rewrite autoSelect_step_lookup_ne].
  simpl. destruct (ae_values e) as [|v0 [|? ?]]; try done.
  assert (Ht : truthy (sel !! ae_id e) = true).
  { apply truthy_Selected. by exists x. }
  by rewrite Ht.
Qed.

Lemma fold_autoSelect_step_lookup_notin index sel ch k :
  k ∉ List.map ae_id index →
  fst (fold_left autoSelect_step index (sel, ch)) !! k = sel !! k.
Proof.
  revert sel ch. induction index as [|e index IH]; intros sel ch Hk; [done|].
  simpl in Hk. apply not_elem_of_cons in Hk as [Hne Hk].
  cbn [fold_left].
  destruct (autoSelect_step (sel, ch) e) as [sel1 ch1] eqn:E.
  rewrite IH by done.
  change sel1 with (fst (sel1, ch1)). rewrite <- E.
  by apply autoSelect_step_lookup_ne.
Qed.

Lemma fold_autoSelect_step_Selected index sel ch k x :
  Selected sel k x →
  Selected (fst (fold_left autoSelect_step index (sel, ch))) k x.
Proof.
  revert sel ch. induction index as [|e index IH]; intros sel ch H; [done|].
  cbn [fold_left].
  destruct (autoSelect_step (sel, ch) e) as [sel1 ch1] eqn:E.
  apply IH. change sel1 with (fst (sel1, ch1)). rewrite <- E.
  by apply autoSelect_step_Selected.
Qed.

Lemma fold_autoSelect_step_dom index sel ch k :
  is_Some (fst (fold_left autoSelect_step index (sel, ch)) !! k) →
  is_Some (sel !! k) ∨ k ∈ List.map ae_id index.
Proof.
  revert sel ch. induction index as [|e index IH]; intros sel ch H;
    [by left|].
  cbn [fold_left] in H.
  destruct (autoSelect_step (sel, ch) e) as [sel1 ch1] eqn:E.
  destruct (decide (k = ae_id e)) as [->|Hne].
  { right. simpl. apply list_elem_of_here. }
  destruct (IH _ _ H) as [H1|H1].
  - left. change sel1 with (fst (sel1, ch1)) in H1. rewrite <- E in H1.
    by rewrite autoSelect_step_lookup_ne in H1.
  - right. simpl. by apply list_elem_of_further.
Qed.

Lemma fold_autoSelect_step_populates index sel ch e v0 :
  NoDup (List.map ae_id index) →
  e ∈ index → ae_values e = [v0] →
  truthy (sel !! ae_id e) = false →
  fst (fold_left autoSelect_step index (sel, ch)) !! ae_id e
  = Some (ve_id v0).
Proof.
  revert sel ch. induction index as [|e1 index IH];
    intros sel ch Hnd He Hv Ht.
  { by apply elem_of_nil in He. }
  simpl in Hnd. apply NoDup_cons in Hnd as [Hnotin Hnd].
  cbn [fold_left].
  destruct (autoSelect_step (sel, ch) e1) as [sel1 ch1] eqn:E.
  apply elem_of_cons in He as [->|He].
  - rewrite fold_autoSelect_step_lookup_notin by done.
    simpl in E. rewrite Hv, Ht in E. simpl in E.
    injection E as <- _. apply lookup_insert_eq.
  - assert (Hne : ae_id e ≠ ae_id e1).
    { intros Heq. apply Hnotin. rewrite <- Heq.
      apply list_elem_of_In, in_map. by apply list_elem_of_In. }
    apply IH; try done.
    change sel1 with (fst (sel1, ch1)). rewrite <- E.
    by rewrite autoSelect_step_lookup_ne.
Qed.

Lemma autoSelect_Selected index sel k x :
  Selected sel k x → Selected (autoSelect index sel) k x.
Proof. rewrite autoSelect_fold. apply fold_autoSelect_step_Selected. Qed.

Lemma autoSelect_in_index index sel :
  SelectionInIndex index sel → SelectionInIndex index (autoSelect index sel).
Proof.
  intros H k Hk. rewrite autoSelect_fold in Hk.
  apply fold_autoSelect_step_dom in Hk as [Hk|Hk]; [by apply H|done].
Qed.

Lemma autoSelect_nil sel : autoSelect [] sel = sel.
Proof. done. Qed.

End AutoSelect.

(** ** Selection and attribute index along the life of the component *)

Lemma handleSelect_in_index variants sel a v :
  forallb consistentRefs variants = true →
  a ∈ List.map ae_id (productAttributes (Some variants)) →
  SelectionInIndex (productAttributes (Some variants)) sel →
  SelectionInIndex (productAttributes (Some variants))
    (handleSelect variants sel a v).
Proof.
  intros Hrefs Ha Hsel k [x Hk].
  destruct (hasExactMatch variants (<[a := v]> sel)) eqn:E.
  - unfold handleSelect in Hk. rewrite E in Hk.
    destruct (decide (k = a)) as [->|Hne]; [done|].
    rewrite lookup_insert_ne in Hk by done. apply Hsel. eauto.
  - destruct (existsb (fun w => hasAssignment w a v) variants) eqn:Ec.
    + apply existsb_hasAssignment in Ec.
      destruct (handleSelect_smart_switch_winner variants sel a v E Ec)
        as (pre & c & post & Hv & _ & _ & _ & Hres).
      rewrite Hres in Hk. apply selection_of_variant_Carries in Hk.
      assert (Hc : c ∈ variants).
      { rewrite Hv. apply elem_of_app. right. apply list_elem_of_here. }
      rewrite forallb_elem_of in Hrefs.
      destruct (Carries_AppearsOn variants c k x (Hrefs c Hc) Hc Hk)
        as (w & p & Hw & Hp & Hpa & _).
      apply productAttributes_has_id. by exists w, p.
    + rewrite existsb_false_elem_of in Ec.
      apply filter_nil_elem_of in Ec.
      unfold handleSelect in Hk. rewrite E, Ec in Hk.
      apply lookup_singleton_Some in Hk as [<- _]. done.
Qed.

Lemma hasButton_in_index variants a v :
  hasButton (Some variants) a v = true →
  a ∈ List.map ae_id (productAttributes (Some variants)).
Proof.
  unfold hasButton. rewrite andb_true_iff, existsb_elem_of.
  intros [_ (e & He & H)]. apply andb_true_iff in H as [Hid _].
  apply String.eqb_eq in Hid. subst a.
  apply list_elem_of_In, in_map. by apply list_elem_of_In.
Qed.

Lemma commit_committed c : committed (commit c).
Proof.
  unfold commit, committed. case_bool_decide; [done|]. done.
Qed.

Lemma commit_of_committed c : committed c → commit c = c.
Proof. intros H. unfold commit. by rewrite bool_decide_eq_true_2. Qed.

Lemma commit_variants c : variants (commit c) = variants c.
Proof. unfold commit. by case_bool_decide. Qed.

Lemma commit_selection c :
  selectedAttributes (commit c) = selectedAttributes c ∨
  selectedAttributes (commit c)
  = autoSelect (productAttributes (variants c)) (selectedAttributes c).
Proof. unfold commit. case_bool_decide; [by left|by right]. Qed.

Lemma step_committed c ev : committed (step c ev).
Proof. apply commit_committed. Qed.

Lemma commit_in_index c :
  SelectionInIndex (productAttributes (variants c)) (selectedAttributes c) →
  SelectionInIndex (productAttributes (variants (commit c)))
    (selectedAttributes (commit c)).
Proof.
  intros H. rewrite commit_variants.
  destruct (commit_selection c) as [-> | ->]; [done|].
  by apply autoSelect_in_index.
Qed.

Lemma commit_Selected c k x :
  Selected (selectedAttributes c) k x →
  Selected (selectedAttributes (commit c)) k x.
Proof.
  intros H. destruct (commit_selection c) as [-> | ->]; [done|].
  by apply autoSelect_Selected.
Qed.

(** C6 as stated fails: the component keeps its selection when the catalog
    is replaced.  After choosing Red on the colour/size product, loading a
    product that varies in size only leaves the colour entry in the
    selection, although the new index has no colour attribute. *)
Lemma stale_selection_after_reload :
  let c := run None [QueryData (Some Examples.catalog);
                     Click "color" "red";
                     QueryData None;
                     QueryData (Some Examples.sizes)] in
  variants c = Some Examples.sizes ∧
  selectedAttributes c !! "color" = Some "red" ∧
  "color" ∉ List.map ae_id (productAttributes (variants c)).
Proof.
  cbv zeta. split; [vm_compute; reflexivity|].
  split; [vm_compute; reflexivity|].
  assert (Hids : List.map ae_id
                   (productAttributes
                      (variants
                         (run None [QueryData (Some Examples.catalog);
                                    Click "color" "red";
                                    QueryData None;
                                    QueryData (Some Examples.sizes)])))
                 = ["size"]) by (vm_compute; reflexivity).
  rewrite Hids. intros H. apply list_elem_of_singleton in H. discriminate.
Qed.

(** C8. For every attribute of the derived index with exactly one value and
    no current selection, the auto-select effect sets the selection to that
    sole value; it never changes the value selected for an attribute; and it
    runs once per change of the attribute index, not on every render: a
    re-render or a click leaves its result to [handleSelect] alone, while a
    change of the catalog data applies it once to the selection. *)
Theorem autoSelect_rule :
  (∀ (variants : list ProductVariant) (sel : gmap string string) e v0,
      e ∈ productAttributes (Some variants) →
      ae_values e = [v0] →
      (¬ ∃ x, Selected sel (ae_id e) x) →
      autoSelect (productAttributes (Some variants)) sel !! ae_id e
      = Some (ve_id v0)) ∧
  (∀ index (sel : gmap string string) k x,
      Selected sel k x → autoSelect index sel !! k = Some x) ∧
  (∀ c, committed c →
        step c Rerender = c ∧
        (∀ a v,
            selectedAttributes (step c (Click a v)) =
            match variants c with
            | Some vs =>
                if hasButton (variants c) a v
                then handleSelect vs (selectedAttributes c) a v
                else selectedAttributes c
            | None => selectedAttributes c
            end) ∧
        (∀ data,
            is_Some data ∨ is_Some (variants c) →
            selectedAttributes (step c (QueryData data)) =
            autoSelect (productAttributes data) (selectedAttributes c))) ∧
  (∀ data, committed (mount data)) ∧
  (∀ c ev, committed (step c ev)).
Proof.
  split; [|split; [|split; [|split]]].
  - intros variants sel e v0 He Hv Hnone. rewrite autoSelect_fold.
    apply fold_autoSelect_step_populates; try done.
    + rewrite productAttributes_ids.
      apply (inv_keys_nodup _ _ (build_attributesMap_inv variants)).
    + destruct (truthy (sel !! ae_id e)) eqn:Et; [|done].
      exfalso. by apply Hnone, truthy_Selected.
  - intros index sel k x H. by apply (autoSelect_Selected index).
  - intros c Hc. split; [|split].
    + unfold step. simpl. by apply commit_of_committed.
    + intros a v. unfold step. rewrite commit_of_committed.
      * simpl. destruct (variants c) as [vs|]; [|done].
        by destruct (hasButton (Some vs) a v).
      * unfold committed in *. simpl.
        destruct (variants c) as [vs|]; [|done].
        by destruct (hasButton (Some vs) a v).
    + intros data Hchange. unfold step, commit.
      assert (Happ : apply_event (QueryData data) c =
                     {| variants := data;
                        variants_ref := S (variants_ref c);
                        selectedAttributes := selectedAttributes c;
                        autoSelect_dep := autoSelect_dep c |}).
      { simpl. destruct data as [d|]; [done|].
        destruct (variants c) as [vs|]; [done|].
        destruct Hchange as [[? ?]|[? ?]]; done. }
      rewrite Happ. simpl. unfold committed in Hc. rewrite Hc.
      rewrite bool_decide_eq_false_2; [done|].
      intros [= Heq]. lia.
  - intros data. apply commit_committed.
  - intros c ev. apply step_committed.
Qed.

Lemma autoSelect_rule_witness :
  autoSelect (productAttributes (Some Examples.blueNoSize)) ∅ !! "size"
  = Some "s".
Proof.
  assert (He : {| ae_id := "size"; ae_name := "Size"; ae_icon_url := None;
                  ae_sort_order := 2;
                  ae_values :=
                    [{| ve_id := "s"; ve_value := "S"; ve_sort_order := 0 |}] |}
               ∈ productAttributes (Some Examples.blueNoSize)).
  { vm_compute. apply list_elem_of_further, list_elem_of_here. }
  apply (proj1 autoSelect_rule Examples.blueNoSize ∅ _ _ He eq_refl).
  intros (x & Hx & _). by rewrite lookup_empty in Hx.
Defined.

(** The effect is not re-run by later renders: after the smart switch to the
    blue variant, which has no size, the single-valued size attribute stays
    unselected, although running the effect again would select it. *)
Example autoSelect_not_rerun :
  let c := run None [QueryData (Some Examples.blueNoSize);
                     Click "color" "blue"; Rerender] in
  selectedAttributes
    (run None [QueryData (Some Examples.blueNoSize)]) = {["size" := "s"]} ∧
  selectedAttributes c = {["color" := "blue"]} ∧
  autoSelect (productAttributes (variants c)) (selectedAttributes c)
  = {["color" := "blue"; "size" := "s"]}.
Proof. cbv zeta. repeat split; vm_compute; reflexivity. Qed.

(** The truthiness test treats an entry holding the empty string as no
    selection: such an entry is replaced by the sole value. *)
Example autoSelect_empty_string_entry :
  autoSelect (productAttributes (Some Examples.blueNoSize)) {["size" := ""]}
  = {["size" := "s"]}.
Proof. vm_compute. reflexivity. Qed.

(** * Further properties of the selector *)

(** ** Availability and the click handler *)

Lemma CarriesAll_insert_Compatible w sel a v :
  CarriesAll w (<[a := v]> sel) ↔ Compatible sel a v w.
Proof.
  unfold CarriesAll, Compatible. split.
  - intros H. split.
    + apply H, lookup_insert_eq.
    + intros k x Hkx Hne. apply H. by rewrite lookup_insert_ne.
  - intros [Hav H] k x Hkx.
    destruct (decide (k = a)) as [->|Hne].
    + rewrite lookup_insert_eq in Hkx. by injection Hkx as <-.
    + rewrite lookup_insert_ne in Hkx by done. by apply H.
Qed.

Lemma hasExactMatch_isValueAvailable variants sel a v :
  hasExactMatch variants (<[a := v]> sel) = isValueAvailable variants sel a v.
Proof.
  apply eq_true_iff_eq.
  rewrite hasExactMatch_CarriesAll, isValueAvailable_Compatible.
  by setoid_rewrite CarriesAll_insert_Compatible.
Qed.

(** X1. The exact-match test of [handleSelect] on the merged selection is
    the availability shown on the button: a click keeps the plain merge when
    the button is available, and takes the switch branch exactly when the
    button carries the title "Switch to this option". *)
Theorem click_switches_iff_unavailable :
  ∀ (variants : list ProductVariant) (sel : gmap string string) (a v : string),
    hasExactMatch variants (<[a := v]> sel)
    = bv_available (buttonView variants sel a v) ∧
    (bv_title (buttonView variants sel a v) = "Switch to this option" ↔
     hasExactMatch variants (<[a := v]> sel) = false) ∧
    (bv_title (buttonView variants sel a v) ≠ "Switch to this option" →
     handleSelect variants sel a v = <[a := v]> sel).
Proof.
  intros variants sel a v. simpl.
  rewrite hasExactMatch_isValueAvailable.
  split; [done|].
  unfold handleSelect. rewrite hasExactMatch_isValueAvailable.
  destruct (isValueAvailable variants sel a v); simpl.
  - split; [|done]. split; [|done].
    by destruct (isValueOutOfStock variants sel a v).
  - split; [done|]. intros H. by destruct H.
Qed.

Lemma isValueOutOfStock_available variants sel a v :
  isValueOutOfStock variants sel a v = true →
  isValueAvailable variants sel a v = true.
Proof.
  unfold isValueOutOfStock, isValueAvailable.
  destruct (List.filter (matchesTarget sel a v) variants) as [|w rest] eqn:E;
    [done|].
  intros _. apply existsb_elem_of. exists w.
  apply filter_elem_of. rewrite E. apply list_elem_of_here.
Qed.

(** X2. A value reported out of stock is always available, so the guard
    [available && isValueOutOfStock(...)] of the render equals
    [isValueOutOfStock(...)], and the title "Out of stock" is shown exactly
    for the out-of-stock values. *)
Theorem outOfStock_guard_redundant :
  ∀ (variants : list ProductVariant) (sel : gmap string string) (a v : string),
    (isValueOutOfStock variants sel a v = true →
     isValueAvailable variants sel a v = true) ∧
    bv_outOfStock (buttonView variants sel a v)
    = isValueOutOfStock variants sel a v ∧
    (bv_title (buttonView variants sel a v) = "Out of stock" ↔
     isValueOutOfStock variants sel a v = true).
Proof.
  intros variants sel a v.
  pose proof (isValueOutOfStock_available variants sel a v) as H.
  split; [done|]. simpl.
  destruct (isValueAvailable variants sel a v),
    (isValueOutOfStock variants sel a v); simpl; try done.
  by specialize (H eq_refl).
Qed.

Lemma matchesTarget_ext sel1 sel2 a v w :
  (∀ k, k ≠ a → sel1 !! k = sel2 !! k) →
  matchesTarget sel1 a v w = matchesTarget sel2 a v w.
Proof.
  intros H. apply eq_true_iff_eq. rewrite !matchesTarget_Compatible.
  unfold Compatible.
  split; intros [Hc Hall]; (split; [done|]); intros k x Hkx Hne;
    apply Hall; try done.
  - by rewrite H.
  - by rewrite <- H.
Qed.

Lemma availability_ext variants sel1 sel2 a v :
  (∀ k, k ≠ a → sel1 !! k = sel2 !! k) →
  isValueAvailable variants sel1 a v = isValueAvailable variants sel2 a v ∧
  isValueOutOfStock variants sel1 a v = isValueOutOfStock variants sel2 a v.
Proof.
  intros H.
  assert (Hext : ∀ w, matchesTarget sel1 a v w = matchesTarget sel2 a v w).
  { intros w. by apply matchesTarget_ext. }
  unfold isValueAvailable, isValueOutOfStock.
  rewrite (List.filter_ext _ _ Hext). split; [|done].
  induction variants as [|w variants IH]; simpl; [done|].
  by rewrite Hext, IH.
Qed.

(** X3. The availability and the stock state of the values of an attribute
    do not depend on what is selected for that attribute itself: changing or
    removing its entry changes neither. *)
Theorem availability_ignores_own_attribute :
  ∀ (variants : list ProductVariant) (sel : gmap string string)
    (a v x : string),
    isValueAvailable variants (<[a := x]> sel) a v
    = isValueAvailable variants sel a v ∧
    isValueOutOfStock variants (<[a := x]> sel) a v
    = isValueOutOfStock variants sel a v ∧
    isValueAvailable variants (delete a sel) a v
    = isValueAvailable variants sel a v ∧
    isValueOutOfStock variants (delete a sel) a v
    = isValueOutOfStock variants sel a v.
Proof.
  intros variants sel a v x.
  destruct (availability_ext variants (<[a := x]> sel) sel a v) as [H1 H2].
  { intros k Hne. by rewrite lookup_insert_ne. }
  destruct (availability_ext variants (delete a sel) sel a v) as [H3 H4].
  { intros k Hne. by rewrite lookup_delete_ne. }
  done.
Qed.

(** X4. Availability is antitone in the selection: a value available under
    a selection is available under every selection with fewer entries. *)
Theorem availability_antitone :
  ∀ (variants : list ProductVariant) (sel sel' : gmap string string)
    (a v : string),
    sel ⊆ sel' →
    isValueAvailable variants sel' a v = true →
    isValueAvailable variants sel a v = true.
Proof.
  intros variants sel sel' a v Hsub.
  rewrite !isValueAvailable_Compatible.
  intros (w & Hw & Hc & Hall). exists w. split; [done|]. split; [done|].
  intros k x Hkx Hne. apply Hall; [|done].
  by apply (lookup_weaken sel sel').
Qed.

Lemma availability_antitone_witness :
  isValueAvailable Examples.catalog ∅ "size" "s" = true.
Proof.
  apply (availability_antitone Examples.catalog ∅ {["color" := "blue"]}).
  - apply map_empty_subseteq.
  - vm_compute. reflexivity.
Defined.

(** ** What a click leaves behind *)

Lemma backed_selection_available variants sel w :
  w ∈ variants → CarriesAll w sel →
  ∀ k x, sel !! k = Some x → isValueAvailable variants sel k x = true.
Proof.
  intros Hw Hall k x Hkx. apply isValueAvailable_Compatible.
  exists w. split; [done|]. split; [by apply Hall|].
  intros k' x' Hk' _. by apply Hall.
Qed.

Lemma handleSelect_CarriesAll variants sel a v :
  (∃ w, w ∈ variants ∧ Carries w a v) →
  ∃ w, w ∈ variants ∧ Carries w a v ∧
       CarriesAll w (handleSelect variants sel a v).
Proof.
  intros Hsome.
  destruct (handleSelect_backing variants sel a v Hsome)
    as (w & Hw & [[Hall Heq]|[Hc Heq]]); exists w; rewrite Heq.
  - split; [done|]. split; [|done]. apply Hall, lookup_insert_eq.
  - split; [done|]. split; [done|].
    intros k x. apply selection_of_variant_Carries.
Qed.

(** X5. After a click on a pair that some variant carries, the clicked
    value and every value of the new selection is available under the new
    selection, so no selected button is rendered in the "unavailable and
    selected" state. *)
Theorem selected_values_available_after_click :
  ∀ (variants : list ProductVariant) (sel : gmap string string) (a v : string),
    (∃ w, w ∈ variants ∧ Carries w a v) →
    isValueAvailable variants (handleSelect variants sel a v) a v = true ∧
    (∀ k x, handleSelect variants sel a v !! k = Some x →
            isValueAvailable variants (handleSelect variants sel a v) k x
            = true) ∧
    (∀ k x,
        bv_destructive
          (buttonView variants (handleSelect variants sel a v) k x) = false).
Proof.
  intros variants sel a v Hsome.
  destruct (handleSelect_CarriesAll variants sel a v Hsome)
    as (w & Hw & Hc & Hall).
  set (sel' := handleSelect variants sel a v) in *.
  assert (Hsel : ∀ k x, sel' !! k = Some x →
                        isValueAvailable variants sel' k x = true).
  { by apply (backed_selection_available variants sel' w). }
  split; [|split; [done|]].
  - apply isValueAvailable_Compatible. exists w. split; [done|].
    split; [done|]. intros k x Hkx _. by apply Hall.
  - intros k x. simpl. case_bool_decide as Hkx.
    + by rewrite (Hsel k x Hkx).
    + apply andb_false_r.
Qed.

Lemma selected_values_available_after_click_witness :
  isValueAvailable Examples.fabrics
    (handleSelect Examples.fabrics Examples.redSCotton_selection
       "color" "blue") "color" "blue" = true.
Proof.
  assert (H : ∃ w, w ∈ Examples.fabrics ∧ Carries w "color" "blue").
  { apply existsb_hasAssignment. vm_compute. reflexivity. }
  exact (proj1 (selected_values_available_after_click Examples.fabrics
                  Examples.redSCotton_selection "color" "blue" H)).
Defined.

(** The three outcomes of [handleSelect], by the two tests it makes. *)
Lemma handleSelect_outcome variants sel a v :
  (hasExactMatch variants (<[a := v]> sel) = true ∧
   handleSelect variants sel a v = <[a := v]> sel) ∨
  (hasExactMatch variants (<[a := v]> sel) = false ∧
   (¬ ∃ w, w ∈ variants ∧ Carries w a v) ∧
   handleSelect variants sel a v = {[a := v]}) ∨
  (hasExactMatch variants (<[a := v]> sel) = false ∧
   ∃ c, c ∈ variants ∧ Carries c a v ∧
        handleSelect variants sel a v = selection_of_variant c).
Proof.
  destruct (hasExactMatch variants (<[a := v]> sel)) eqn:E.
  { left. split; [done|]. unfold handleSelect. by rewrite E. }
  right.
  destruct (existsb (fun w => hasAssignment w a v) variants) eqn:Ec.
  - right. split; [done|]. apply existsb_hasAssignment in Ec.
    destruct (handleSelect_smart_switch_winner variants sel a v E Ec)
      as (pre & c & post & Hv & Hc & _ & _ & Hres).
    exists c. split; [|done].
    rewrite Hv. apply elem_of_app. right. apply list_elem_of_here.
  - left. split; [done|].
    assert (Hnone : ¬ ∃ w, w ∈ variants ∧ Carries w a v).
    { intros H. apply existsb_hasAssignment in H. congruence. }
    split; [done|]. apply candidates_nil in Hnone.
    unfold handleSelect. by rewrite E, Hnone.
Qed.

(** X6. On catalogs with at most one value per attribute per variant, the
    click handler always leaves the clicked value selected, whichever branch
    it takes. *)
Theorem clicked_value_always_selected :
  ∀ (variants : list ProductVariant) (sel : gmap string string) (a v : string),
    forallb oneValuePerAttribute variants = true →
    handleSelect variants sel a v !! a = Some v ∧
    bv_isSelected
      (buttonView variants (handleSelect variants sel a v) a v) = true.
Proof.
  intros variants sel a v Hwf.
  assert (H : handleSelect variants sel a v !! a = Some v).
  { destruct (handleSelect_outcome variants sel a v)
      as [[_ ->]|[(_ & _ & ->)|(_ & c & Hc & Hcav & ->)]].
    - apply lookup_insert_eq.
    - apply lookup_singleton_eq.
    - rewrite forallb_elem_of in Hwf.
      by apply selection_of_variant_lookup; [apply Hwf|]. }
  split; [done|]. simpl. by apply bool_decide_eq_true_2.
Qed.

Lemma clicked_value_always_selected_witness :
  handleSelect Examples.catalog Examples.redM_selection "color" "blue"
    !! "color" = Some "blue".
Proof.
  apply (clicked_value_always_selected Examples.catalog
           Examples.redM_selection "color" "blue").
  vm_compute. reflexivity.
Defined.

(** X7. On such catalogs clicking the same button twice gives the same
    selection as clicking it once. *)
Theorem handleSelect_idempotent :
  ∀ (variants : list ProductVariant) (sel : gmap string string) (a v : string),
    forallb oneValuePerAttribute variants = true →
    handleSelect variants (handleSelect variants sel a v) a v
    = handleSelect variants sel a v.
Proof.
  intros variants sel a v Hwf.
  destruct (handleSelect_outcome variants sel a v)
    as [[E ->]|[(E & Hnone & ->)|(E & c & Hc & Hcav & ->)]].
  - unfold handleSelect. by rewrite insert_insert_eq, E.
  - assert (E' : hasExactMatch variants (<[a := v]> {[a := v]}) = false).
    { apply hasExactMatch_false. intros (w & Hw & Hall). apply Hnone.
      exists w. split; [done|]. apply Hall, lookup_insert_eq. }
    apply candidates_nil in Hnone.
    unfold handleSelect. rewrite E', Hnone. done.
  - rewrite forallb_elem_of in Hwf.
    assert (Hav : selection_of_variant c !! a = Some v).
    { by apply selection_of_variant_lookup; [apply Hwf|]. }
    assert (E' : hasExactMatch variants
                   (<[a := v]> (selection_of_variant c)) = true).
    { apply hasExactMatch_CarriesAll. exists c. split; [done|].
      rewrite insert_id by done.
      intros k x. apply selection_of_variant_Carries. }
    unfold handleSelect. rewrite E'. by apply insert_id.
Qed.

Lemma handleSelect_idempotent_witness :
  handleSelect Examples.fabrics
    (handleSelect Examples.fabrics Examples.redSCotton_selection
       "color" "blue") "color" "blue"
  = handleSelect Examples.fabrics Examples.redSCotton_selection
      "color" "blue".
Proof.
  apply handleSelect_idempotent. vm_compute. reflexivity.
Defined.

(** X8. A smart switch never keeps all the other previous choices: when
    the merged selection has no exact match and a candidate exists, some
    entry of the previous selection for another attribute is dropped or
    changed. *)
Theorem smart_switch_changes_another_choice :
  ∀ (variants : list ProductVariant) (sel : gmap string string) (a v : string),
    hasExactMatch variants (<[a := v]> sel) = false →
    (∃ w, w ∈ variants ∧ Carries w a v) →
    ¬ ∀ k x, k ≠ a → sel !! k = Some x →
             handleSelect variants sel a v !! k = Some x.
Proof.
  intros variants sel a v E Hsome Hkeep.
  destruct (handleSelect_CarriesAll variants sel a v Hsome)
    as (w & Hw & Hc & Hall).
  apply hasExactMatch_false in E. apply E. exists w. split; [done|].
  apply CarriesAll_insert_Compatible. split; [done|].
  intros k x Hkx Hne. apply Hall. by apply Hkeep.
Qed.

Lemma smart_switch_changes_another_choice_witness :
  ¬ ∀ k x, k ≠ "color" → Examples.redM_selection !! k = Some x →
           handleSelect Examples.catalog Examples.redM_selection
             "color" "blue" !! k = Some x.
Proof.
  apply smart_switch_changes_another_choice.
  - vm_compute. reflexivity.
  - apply existsb_hasAssignment. vm_compute. reflexivity.
Defined.

(** ** Clicks on rendered buttons *)

Lemma hasButton_AppearsOn variants a v :
  hasButton (Some variants) a v = true → AppearsOn variants a v.
Proof.
  unfold hasButton. rewrite andb_true_iff, existsb_elem_of.
  intros [_ (e & He & H)]. apply andb_true_iff in H as [Hid Hval].
  apply String.eqb_eq in Hid. subst a.
  apply existsb_elem_of in Hval as (val & Hval & Hv).
  apply String.eqb_eq in Hv. subst v.
  apply (productAttributes_value_ids variants e He).
  apply list_elem_of_In, in_map. by apply list_elem_of_In.
Qed.

Lemma hasButton_Carries variants a v :
  forallb consistentRefs variants = true →
  hasButton (Some variants) a v = true →
  ∃ w, w ∈ variants ∧ Carries w a v.
Proof.
  intros Hrefs Hb. apply hasButton_AppearsOn in Hb
    as (w & p & Hw & Hp & Hpa & Hpv).
  exists w. split; [done|]. exists p. split; [done|]. split; [|done].
  rewrite forallb_elem_of in Hrefs.
  by rewrite (consistentRefs_spec w p (Hrefs w Hw) Hp).
Qed.

(** X9. On a catalog with consistent attribute references, the pair of
    every rendered button is carried by some variant, so a click on a
    button never takes the defensive zero-candidate branch: the new
    selection is the plain merge or the assignments of a variant carrying
    the clicked pair. *)
Theorem button_click_never_collapses :
  ∀ (variants : list ProductVariant) (sel : gmap string string) (a v : string),
    forallb consistentRefs variants = true →
    hasButton (Some variants) a v = true →
    List.filter (fun w => hasAssignment w a v) variants ≠ [] ∧
    ((hasExactMatch variants (<[a := v]> sel) = true ∧
      handleSelect variants sel a v = <[a := v]> sel) ∨
     (hasExactMatch variants (<[a := v]> sel) = false ∧
      ∃ c, c ∈ variants ∧ Carries c a v ∧
           handleSelect variants sel a v = selection_of_variant c)).
Proof.
  intros variants sel a v Hrefs Hb.
  pose proof (hasButton_Carries variants a v Hrefs Hb) as Hsome.
  split.
  - intros Hnil. by apply candidates_nil in Hnil.
  - destruct (handleSelect_outcome variants sel a v)
      as [H|[(_ & Hnone & _)|H]]; [by left|done|by right].
Qed.

Lemma button_click_never_collapses_witness :
  List.filter (fun w => hasAssignment w "size" "m") Examples.catalog ≠ [].
Proof.
  apply (button_click_never_collapses Examples.catalog ∅ "size" "m").
  - vm_compute. reflexivity.
  - vm_compute. reflexivity.
Defined.

(** ** Order of the attribute index *)

Section SortFacts.
Context {V : Type}.
Implicit Types (a : AttrEntry V) (l : list (AttrEntry V)).

Lemma sort_insert_sorted a l :
  StronglySorted sortOrderLe l → StronglySorted sortOrderLe (sort_insert a l).
Proof.
  induction l as [|b l IH]; intros Hs; simpl.
  - repeat constructor.
  - apply StronglySorted_inv in Hs as [Hl Hb].
    destruct (ae_sort_order a <=? ae_sort_order b) eqn:E.
    + apply Z.leb_le in E. constructor; [by constructor|].
      constructor; [done|].
      eapply Forall_impl; [exact Hb|]. unfold sortOrderLe. simpl. lia.
    + apply Z.leb_gt in E. constructor; [by apply IH|].
      rewrite sort_insert_Permutation. constructor; [|done].
      unfold sortOrderLe. lia.
Qed.

Lemma sort_by_sort_order_sorted l :
  StronglySorted sortOrderLe (sort_by_sort_order l).
Proof.
  induction l as [|a l IH]; simpl; [constructor|].
  by apply sort_insert_sorted.
Qed.

(** Stability: the entries of one sort key keep their relative order. *)
Lemma sort_insert_stable z a l :
  List.filter (fun e => ae_sort_order e =? z) (sort_insert a l)
  = List.filter (fun e => ae_sort_order e =? z) (a :: l).
Proof.
  induction l as [|b l IH]; [done|]. simpl sort_insert.
  destruct (ae_sort_order a <=? ae_sort_order b) eqn:E; [done|].
  apply Z.leb_gt in E.
  cbn [List.filter] in *. rewrite IH.
  destruct (ae_sort_order a =? z) eqn:Ea, (ae_sort_order b =? z) eqn:Eb;
    try done.
  apply Z.eqb_eq in Ea, Eb. lia.
Qed.

Lemma sort_by_sort_order_stable z l :
  List.filter (fun e => ae_sort_order e =? z) (sort_by_sort_order l)
  = List.filter (fun e => ae_sort_order e =? z) l.
Proof.
  induction l as [|a l IH]; [done|]. simpl sort_by_sort_order.
  rewrite sort_insert_stable. cbn [List.filter]. by rewrite IH.
Qed.

Lemma filter_all_true (f : AttrEntry V → bool) l :
  (∀ e, e ∈ l → f e = true) → List.filter f l = l.
Proof.
  induction l as [|a l IH]; intros H; simpl; [done|].
  rewrite (H a) by apply list_elem_of_here. f_equal.
  apply IH. intros e He. apply H. by apply list_elem_of_further.
Qed.
End SortFacts.

Lemma sorted_values_to_array l :
  StronglySorted sortOrderLe l →
  StronglySorted sortOrderLe (List.map values_to_array l).
Proof.
  induction 1 as [|a l Hs IH Ha]; simpl; constructor; [done|].
  apply Forall_forall. intros e' He'.
  apply list_elem_of_In, in_map_iff in He' as (e & <- & He).
  rewrite Forall_forall in Ha. apply (Ha e). by apply list_elem_of_In.
Qed.

(** X10. The attribute index is in ascending order of the attributes' sort
    keys (a missing sort key counting as 0). *)
Theorem productAttributes_sorted :
  ∀ (variants : option (list ProductVariant)),
    StronglySorted
      (fun e1 e2 => ae_sort_order e1 ≤ ae_sort_order e2)
      (productAttributes variants).
Proof.
  intros [vs|]; simpl; [|constructor].
  apply sorted_values_to_array, sort_by_sort_order_sorted.
Qed.

Lemma filter_values_to_array z l :
  List.filter (fun e => ae_sort_order e =? z) (List.map values_to_array l)
  = List.map values_to_array (List.filter (fun e => ae_sort_order e =? z) l).
Proof.
  induction l as [|a l IH]; simpl; [done|].
  destruct (ae_sort_order a =? z); simpl; by rewrite IH.
Qed.

Lemma sublist_List_filter {A} (f : A → bool) (l : list A) :
  List.filter f l `sublist_of` l.
Proof.
  induction l as [|a l IH]; simpl; [constructor|].
  destruct (f a); by constructor.
Qed.

Lemma sublist_map {A B} (f : A → B) (l1 l2 : list A) :
  l1 `sublist_of` l2 → List.map f l1 `sublist_of` List.map f l2.
Proof. induction 1; simpl; by constructor. Qed.

Lemma map_ae_id_values variants :
  List.map ae_id (JsMap.values (build_attributesMap variants))
  = JsMap.keys (build_attributesMap variants).
Proof.
  pose proof (build_attributesMap_inv variants) as Hinv.
  apply ids_of_values. intros k y Hin. apply (inv_entry_id _ _ Hinv).
  apply JsMap_elem_of_get; [apply Hinv|done].
Qed.

(** ** First-seen order and provenance of the index entries *)

Lemma first_seen_snoc l x :
  first_seen (l ++ [x]) =
  if existsb (String.eqb x) (first_seen l) then first_seen l
  else first_seen l ++ [x].
Proof. unfold first_seen. by rewrite fold_left_app. Qed.

Lemma JsMap_has_existsb_keys {V} (m : JsMap.t V) k :
  JsMap.has m k = existsb (String.eqb k) (JsMap.keys m).
Proof.
  induction m as [|[k' y] m IH]; simpl; [done|].
  by rewrite IH, (String.eqb_sym k' k).
Qed.

Lemma index_step_get_of m p k :
  JsMap.get (index_step m p) k =
  if decide (k = pvv_attr p)
  then Some (addValueOf p (default (newEntryOf p) (JsMap.get m (pvv_attr p))))
  else JsMap.get m k.
Proof. exact (index_step_get p m k). Qed.

Lemma index_step_keys m p :
  JsMap.keys (index_step m p) =
  if JsMap.has m (pvv_attr p) then JsMap.keys m
  else JsMap.keys m ++ [pvv_attr p].
Proof.
  unfold index_step. rewrite JsMap_keys_update. fold (pvv_attr p).
  destruct (JsMap.has m (pvv_attr p)) eqn:E; simpl; [done|].
  by apply JsMap_keys_set_fresh.
Qed.

Lemma addValueOf_get p e vk :
  JsMap.get (ae_values (addValueOf p e)) vk =
  if decide (vk = pvv_val p)
  then Some (default (newValueOf p) (JsMap.get (ae_values e) (pvv_val p)))
  else JsMap.get (ae_values e) vk.
Proof. exact (addValue_get p e vk). Qed.

Lemma addValueOf_keys p e :
  JsMap.keys (ae_values (addValueOf p e)) =
  if JsMap.has (ae_values e) (pvv_val p) then JsMap.keys (ae_values e)
  else JsMap.keys (ae_values e) ++ [pvv_val p].
Proof.
  unfold addValueOf.
  destruct (JsMap.has (ae_values e) (pvv_val p)) eqn:E; simpl; [done|].
  by apply JsMap_keys_set_fresh.
Qed.

Lemma entryDataOf_addValueOf p0 p e :
  entryDataOf p0 e → entryDataOf p0 (addValueOf p e).
Proof.
  unfold entryDataOf, addValueOf.
  by destruct (negb (JsMap.has (ae_values e) (pvv_val p))).
Qed.

Lemma FirstOf_snoc seen k p0 p :
  FirstOf seen k p0 → FirstOf (seen ++ [p]) k p0.
Proof.
  intros (pre & post & -> & H). exists pre, (post ++ [p]).
  split; [|done]. by rewrite <- app_assoc.
Qed.

Lemma FirstOf_new seen p :
  (∀ q, q ∈ seen → pvv_attr q ≠ pvv_attr p) →
  FirstOf (seen ++ [p]) (pvv_attr p) p.
Proof. intros H. by exists seen, []. Qed.

Lemma FirstPair_snoc seen k vk p0 p :
  FirstPair seen k vk p0 → FirstPair (seen ++ [p]) k vk p0.
Proof.
  intros (pre & post & -> & H). exists pre, (post ++ [p]).
  split; [|done]. by rewrite <- app_assoc.
Qed.

Lemma FirstPair_new seen p :
  (∀ q, q ∈ seen → ¬ (pvv_attr q = pvv_attr p ∧ pvv_val q = pvv_val p)) →
  FirstPair (seen ++ [p]) (pvv_attr p) (pvv_val p) p.
Proof. intros H. by exists seen, []. Qed.

Lemma filter_attr_none (seen : list VariantAttributeValue) k :
  (∀ q, q ∈ seen → pvv_attr q ≠ k) →
  List.filter (fun q => String.eqb (pvv_attr q) k) seen = [].
Proof.
  intros H. apply filter_nil_elem_of. intros q Hq.
  apply String.eqb_neq. by apply H.
Qed.

Lemma IndexOrder_nil : IndexOrder [] [].
Proof. split; simpl; done. Qed.

Lemma index_step_order seen m p :
  IndexInv seen m → IndexOrder seen m →
  IndexOrder (seen ++ [p]) (index_step m p).
Proof.
  intros Hinv [Hk Hv Hf Hvf].
  assert (Hnone : JsMap.get m (pvv_attr p) = None →
                  ∀ q, q ∈ seen → pvv_attr q ≠ pvv_attr p).
  { intros G q Hq Hqa.
    assert (is_Some (JsMap.get m (pvv_attr p))) as [? ?]
      by (apply (inv_attr_seen _ _ Hinv); eauto).
    congruence. }
  assert (Hfne : ∀ k, k ≠ pvv_attr p →
            List.filter (fun q => String.eqb (pvv_attr q) k) (seen ++ [p])
            = List.filter (fun q => String.eqb (pvv_attr q) k) seen).
  { intros k Hne. rewrite List.filter_app. simpl.
    rewrite (proj2 (String.eqb_neq (pvv_attr p) k)) by congruence.
    apply app_nil_r. }
  assert (Hfeq :
            List.filter (fun q => String.eqb (pvv_attr q) (pvv_attr p))
              (seen ++ [p])
            = List.filter (fun q => String.eqb (pvv_attr q) (pvv_attr p)) seen
              ++ [p]).
  { rewrite List.filter_app. simpl. by rewrite String.eqb_refl. }
  split.
  - rewrite index_step_keys, List.map_app. simpl.
    by rewrite first_seen_snoc, <- Hk, JsMap_has_existsb_keys.
  - intros k e. rewrite index_step_get_of. case_decide as Hka.
    + subst k. intros [= <-]. rewrite addValueOf_keys.
      rewrite Hfeq, List.map_app. simpl. rewrite first_seen_snoc.
      assert (He0 :
                JsMap.keys
                  (ae_values
                     (default (newEntryOf p) (JsMap.get m (pvv_attr p))))
                = first_seen
                    (List.map pvv_val
                       (List.filter
                          (fun q => String.eqb (pvv_attr q) (pvv_attr p))
                          seen))).
      { destruct (JsMap.get m (pvv_attr p)) as [e0|] eqn:G; simpl.
        - by apply Hv.
        - by rewrite (filter_attr_none seen (pvv_attr p) (Hnone eq_refl)). }
      by rewrite <- He0, JsMap_has_existsb_keys.
    + intros G. rewrite Hfne by done. by apply Hv.
  - intros k e. rewrite index_step_get_of. case_decide as Hka.
    + subst k. intros [= <-].
      destruct (JsMap.get m (pvv_attr p)) as [e0|] eqn:G; simpl.
      * destruct (Hf _ _ G) as (p0 & Hfirst & Hdata). exists p0.
        split; [by apply FirstOf_snoc|by apply entryDataOf_addValueOf].
      * exists p. split; [by apply FirstOf_new, Hnone|].
        by apply entryDataOf_addValueOf.
    + intros G. destruct (Hf _ _ G) as (p0 & Hfirst & Hdata). exists p0.
      split; [by apply FirstOf_snoc|done].
  - intros k e vk ve. rewrite index_step_get_of. case_decide as Hka.
    + subst k. intros [= <-]. rewrite addValueOf_get. case_decide as Hvx.
      * subst vk.
        destruct (JsMap.get m (pvv_attr p)) as [e0|] eqn:G; simpl.
        -- destruct (JsMap.get (ae_values e0) (pvv_val p)) as [ve0|] eqn:Gv;
             simpl; intros [= <-].
           ++ destruct (Hvf _ _ _ _ G Gv) as (p0 & Hp0 & Hdata).
              exists p0. split; [by apply FirstPair_snoc|done].
           ++ exists p. split; [|done]. apply FirstPair_new.
              intros q Hq [Hqa Hqv].
              assert (is_Some (JsMap.get (ae_values e0) (pvv_val p)))
                as [? ?]
                by (apply (inv_val_seen _ _ Hinv _ _ _ G); eauto).
              congruence.
        -- intros [= <-]. exists p. split; [|done]. apply FirstPair_new.
           intros q Hq [Hqa _]. by apply (Hnone eq_refl q Hq).
      * destruct (JsMap.get m (pvv_attr p)) as [e0|] eqn:G; simpl; [|done].
        intros Gv. destruct (Hvf _ _ _ _ G Gv) as (p0 & Hp0 & Hdata).
        exists p0. split; [by apply FirstPair_snoc|done].
    + intros G Gv. destruct (Hvf _ _ _ _ G Gv) as (p0 & Hp0 & Hdata).
      exists p0. split; [by apply FirstPair_snoc|done].
Qed.

Lemma fold_index_step_order l seen m :
  IndexInv seen m → IndexOrder seen m →
  IndexOrder (seen ++ l) (fold_left index_step l m).
Proof.
  revert seen m. induction l as [|p l IH]; intros seen m Hinv Hord; simpl.
  - by rewrite app_nil_r.
  - replace (seen ++ p :: l) with ((seen ++ [p]) ++ l)
      by (by rewrite <- app_assoc).
    apply IH; [by apply index_step_inv|by apply index_step_order].
Qed.

Lemma build_attributesMap_order variants :
  IndexOrder (all_assignments variants) (build_attributesMap variants).
Proof.
  unfold build_attributesMap, all_assignments.
  enough (G : ∀ seen m,
             IndexInv seen m → IndexOrder seen m →
             IndexInv (seen ++ flat_map product_variant_values variants)
               (fold_left
                  (fun m variant =>
                     fold_left index_step (product_variant_values variant) m)
                  variants m) ∧
             IndexOrder (seen ++ flat_map product_variant_values variants)
               (fold_left
                  (fun m variant =>
                     fold_left index_step (product_variant_values variant) m)
                  variants m)).
  { apply (G [] []); [apply IndexInv_nil|apply IndexOrder_nil]. }
  induction variants as [|w variants IH]; intros seen m Hinv Hord; simpl.
  - by rewrite app_nil_r.
  - rewrite app_assoc.
    apply IH; [by apply fold_index_step_inv|by apply fold_index_step_order].
Qed.

Lemma productAttributes_filter_sort_order variants z :
  List.map ae_id
    (List.filter (fun e => ae_sort_order e =? z)
       (productAttributes (Some variants)))
  = List.map ae_id
      (List.filter (fun e => ae_sort_order e =? z)
         (JsMap.values (build_attributesMap variants))).
Proof.
  unfold productAttributes.
  rewrite filter_values_to_array, map_ae_id_values_to_array.
  by rewrite sort_by_sort_order_stable.
Qed.

(** X11. Attributes that share a sort key appear in the index in the order
    in which the catalog first mentions them; in particular, when all
    attributes have the same sort key, the index lists them in first-seen
    order. *)
Theorem productAttributes_ties_first_seen :
  ∀ (variants : list ProductVariant) (z : Z),
    List.map ae_id
      (List.filter (fun e => ae_sort_order e =? z)
         (productAttributes (Some variants)))
    `sublist_of` first_seen (List.map pvv_attr (all_assignments variants)) ∧
    ((∀ e, e ∈ productAttributes (Some variants) → ae_sort_order e = z) →
     List.map ae_id (productAttributes (Some variants))
     = first_seen (List.map pvv_attr (all_assignments variants))).
Proof.
  intros variants z.
  pose proof (build_attributesMap_order variants) as Hord.
  rewrite <- (ord_keys _ _ Hord), <- map_ae_id_values.
  split.
  - rewrite productAttributes_filter_sort_order.
    apply sublist_map, sublist_List_filter.
  - intros Hall.
    rewrite <- (filter_all_true (fun e => ae_sort_order e =? z)
                  (productAttributes (Some variants))) at 1.
    2:{ intros e He. apply Z.eqb_eq. by apply Hall. }
    rewrite productAttributes_filter_sort_order.
    rewrite filter_all_true; [done|].
    intros e He. apply Z.eqb_eq.
    apply (Hall (values_to_array e)).
    unfold productAttributes. apply list_elem_of_In, in_map, list_elem_of_In.
    by rewrite sort_by_sort_order_Permutation.
Qed.

(** X12. The values of an attribute are listed in the order in which the
    catalog first assigns them to that attribute. *)
Theorem productAttributes_values_first_seen :
  ∀ (variants : list ProductVariant) (e : AttrEntry (list ValueEntry)),
    e ∈ productAttributes (Some variants) →
    List.map ve_id (ae_values e)
    = first_seen
        (List.map pvv_val
           (List.filter (fun q => String.eqb (pvv_attr q) (ae_id e))
              (all_assignments variants))).
Proof.
  intros variants e He.
  pose proof (build_attributesMap_inv variants) as Hinv.
  pose proof (build_attributesMap_order variants) as Hord.
  apply productAttributes_elem_of in He as (e0 & Hget & ->). simpl in *.
  rewrite <- (ord_vals _ _ Hord _ _ Hget).
  apply ids_of_values. intros k y Hin.
  apply (inv_val_id _ _ Hinv _ _ _ _ Hget).
  apply JsMap_elem_of_get; [|done]. apply (inv_vals_nodup _ _ Hinv _ _ Hget).
Qed.

Lemma size_entry_in_catalog_index :
  {| ae_id := "size"; ae_name := "Size"; ae_icon_url := None;
     ae_sort_order := 2;
     ae_values :=
       [{| ve_id := "s"; ve_value := "S"; ve_sort_order := 0 |};
        {| ve_id := "m"; ve_value := "M"; ve_sort_order := 0 |}] |}
  ∈ productAttributes (Some Examples.catalog).
Proof. vm_compute. apply list_elem_of_further, list_elem_of_here. Qed.

Lemma productAttributes_values_first_seen_witness :
  ["s"; "m"]
  = first_seen
      (List.map pvv_val
         (List.filter (fun q => String.eqb (pvv_attr q) "size")
            (all_assignments Examples.catalog))).
Proof.
  exact (productAttributes_values_first_seen Examples.catalog _
           size_entry_in_catalog_index).
Defined.

(** X13. The name, icon and sort key of an index attribute are those of
    the first assignment of the catalog that mentions the attribute, and
    the display text of each listed value is that of the first assignment
    of this value to the attribute; the sort key of a value is always 0. *)
Theorem productAttributes_display_data :
  ∀ (variants : list ProductVariant) (e : AttrEntry (list ValueEntry)),
    e ∈ productAttributes (Some variants) →
    (∃ p, FirstOf (all_assignments variants) (ae_id e) p ∧
          ae_name e
          = attr_name (product_attributes (product_attribute_values p)) ∧
          ae_icon_url e
          = attr_icon_url (product_attributes (product_attribute_values p)) ∧
          ae_sort_order e
          = sort_order_or_0
              (attr_sort_order
                 (product_attributes (product_attribute_values p)))) ∧
    (∀ val, val ∈ ae_values e →
            ∃ p, FirstPair (all_assignments variants) (ae_id e) (ve_id val) p ∧
                 ve_value val = value (product_attribute_values p) ∧
                 ve_sort_order val = 0).
Proof.
  intros variants e He.
  pose proof (build_attributesMap_inv variants) as Hinv.
  pose proof (build_attributesMap_order variants) as Hord.
  apply productAttributes_elem_of in He as (e0 & Hget & ->). simpl in *.
  split.
  - destruct (ord_first _ _ Hord _ _ Hget) as (p & Hp & Hdata).
    exists p. split; [done|]. exact Hdata.
  - intros val Hval. apply JsMap_elem_of_values in Hval as (vk & Hin).
    apply JsMap_elem_of_get in Hin;
      [|apply (inv_vals_nodup _ _ Hinv _ _ Hget)].
    rewrite (inv_val_id _ _ Hinv _ _ _ _ Hget Hin).
    by apply (ord_val_first _ _ Hord _ _ _ _ Hget Hin).
Qed.

Lemma productAttributes_display_data_witness :
  ∃ p, FirstOf (all_assignments Examples.catalog) "size" p ∧
       "Size" = attr_name (product_attributes (product_attribute_values p)) ∧
       None = attr_icon_url (product_attributes (product_attribute_values p)) ∧
       2 = sort_order_or_0
             (attr_sort_order
                (product_attributes (product_attribute_values p))).
Proof.
  exact (proj1 (productAttributes_display_data Examples.catalog _
                  size_entry_in_catalog_index)).
Defined.

(** ** More on the auto-select effect *)

Lemma autoSelect_step_frame sel ch e k :
  (∀ v0, ¬ (ae_id e = k ∧ ae_values e = [v0])) →
  fst (autoSelect_step (sel, ch) e) !! k = sel !! k.
Proof.
  intros H. simpl. destruct (ae_values e) as [|v0 [|? ?]] eqn:Ev; try done.
  destruct (negb (truthy (sel !! ae_id e))); [|done]. simpl.
  apply lookup_insert_ne. intros Heq. by apply (H v0).
Qed.

Lemma fold_autoSelect_step_frame (index : list (AttrEntry (list ValueEntry)))
    sel ch k :
  (∀ e v0, e ∈ index → ¬ (ae_id e = k ∧ ae_values e = [v0])) →
  fst (fold_left autoSelect_step index (sel, ch)) !! k = sel !! k.
Proof.
  revert sel ch. induction index as [|e index IH]; intros sel ch H; [done|].
  cbn [fold_left].
  destruct (autoSelect_step (sel, ch) e) as [sel1 ch1] eqn:E.
  rewrite IH.
  - change sel1 with (fst (sel1, ch1)). rewrite <- E.
    apply autoSelect_step_frame. intros v0. apply H, list_elem_of_here.
  - intros e' v0 He'. apply H. by apply list_elem_of_further.
Qed.

(** X14. The auto-select effect only touches attributes of the index that
    have exactly one value: the entry of every other attribute, in the
    index or not, is left as it is; with an empty index the selection is
    unchanged. *)
Theorem autoSelect_frame :
  ∀ (index : list (AttrEntry (list ValueEntry))) (sel : gmap string string),
    (∀ k, (∀ e v0, e ∈ index → ¬ (ae_id e = k ∧ ae_values e = [v0])) →
          autoSelect index sel !! k = sel !! k) ∧
    (index = [] → autoSelect index sel = sel).
Proof.
  intros index sel. split.
  - intros k H. rewrite autoSelect_fold. by apply fold_autoSelect_step_frame.
  - by intros ->.
Qed.

Lemma productAttributes_NoDup_ids variants :
  NoDup (List.map ae_id (productAttributes variants)).
Proof.
  destruct variants as [vs|]; [|apply NoDup_nil_2].
  rewrite productAttributes_ids.
  apply (inv_keys_nodup _ _ (build_attributesMap_inv vs)).
Qed.

Lemma autoSelect_populates (index : list (AttrEntry (list ValueEntry)))
    sel e v0 :
  NoDup (List.map ae_id index) →
  e ∈ index → ae_values e = [v0] → truthy (sel !! ae_id e) = false →
  autoSelect index sel !! ae_id e = Some (ve_id v0).
Proof.
  intros. rewrite autoSelect_fold.
  by apply fold_autoSelect_step_populates.
Qed.

Lemma single_valued_dec (index : list (AttrEntry (list ValueEntry))) k :
  (∃ e v0, e ∈ index ∧ ae_id e = k ∧ ae_values e = [v0]) ∨
  (∀ e v0, e ∈ index → ¬ (ae_id e = k ∧ ae_values e = [v0])).
Proof.
  induction index as [|e index IH].
  - right. intros e v0 He. by apply elem_of_nil in He.
  - destruct IH as [(e' & v0 & He' & H)|IH].
    + left. exists e', v0. split; [by apply list_elem_of_further|done].
    + destruct (decide (ae_id e = k)) as [Hk|Hk].
      * destruct (ae_values e) as [|v0 [|v1 r]] eqn:Ev.
        -- right. intros e' v0 He' [Hid Hv].
           apply elem_of_cons in He' as [->|He']; [congruence|].
           by apply (IH e' v0).
        -- left. exists e, v0. split; [apply list_elem_of_here|done].
        -- right. intros e' v0' He' [Hid Hv].
           apply elem_of_cons in He' as [->|He']; [congruence|].
           by apply (IH e' v0').
      * right. intros e' v0 He' [Hid Hv].
        apply elem_of_cons in He' as [->|He']; [done|].
        by apply (IH e' v0).
Qed.

(** X15. Running the auto-select effect a second time on the derived index
    changes nothing. *)
Theorem autoSelect_idempotent :
  ∀ (variants : option (list ProductVariant)) (sel : gmap string string),
    autoSelect (productAttributes variants)
      (autoSelect (productAttributes variants) sel)
    = autoSelect (productAttributes variants) sel.
Proof.
  intros variants sel.
  set (index := productAttributes variants).
  pose proof (productAttributes_NoDup_ids variants) as Hnd. fold index in Hnd.
  apply map_eq. intros k.
  destruct (single_valued_dec index k) as [(e & v0 & He & <- & Hv)|Hframe].
  - destruct (truthy (autoSelect index sel !! ae_id e)) eqn:Et.
    + apply truthy_Selected in Et as (x & Hx).
      pose proof (autoSelect_Selected index _ _ _ Hx) as [Hx' _].
      destruct Hx as [Hx _]. by rewrite Hx, Hx'.
    + rewrite (autoSelect_populates index _ e v0) by done.
      destruct (truthy (sel !! ae_id e)) eqn:Es.
      * apply truthy_Selected in Es as (x & Hx).
        pose proof (autoSelect_Selected index _ _ _ Hx) as Hx'.
        assert (truthy (autoSelect index sel !! ae_id e) = true)
          by (apply truthy_Selected; eauto).
        congruence.
      * by rewrite (autoSelect_populates index sel e v0).
  - rewrite !autoSelect_fold.
    by rewrite !fold_autoSelect_step_frame.
Qed.

(** ** The variant-match effect reads the index attributes only *)

Lemma forallb_ext_elem_of {A} (f g : A → bool) (l : list A) :
  (∀ x, x ∈ l → f x = g x) → forallb f l = forallb g l.
Proof.
  induction l as [|a l IH]; intros H; simpl; [done|].
  rewrite (H a) by apply list_elem_of_here. f_equal.
  apply IH. intros x Hx. apply H. by apply list_elem_of_further.
Qed.

Lemma map_ext_elem_of {A B} (f g : A → B) (l : list A) :
  (∀ x, x ∈ l → f x = g x) → List.map f l = List.map g l.
Proof.
  induction l as [|a l IH]; intros H; simpl; [done|].
  rewrite (H a) by apply list_elem_of_here. f_equal.
  apply IH. intros x Hx. apply H. by apply list_elem_of_further.
Qed.

Lemma find_ext_all {A} (f g : A → bool) (l : list A) :
  (∀ x, f x = g x) → List.find f l = List.find g l.
Proof.
  intros H. induction l as [|a l IH]; simpl; [done|]. by rewrite H, IH.
Qed.

(** X16. The report of the variant-match effect depends on the selection
    only through the entries of the index attributes: two selections that
    agree on every attribute of the index give the same report. *)
Theorem variantMatchEffect_reads_index_only :
  ∀ (variants : option (list ProductVariant))
    (sel1 sel2 : gmap string string),
    (∀ e, e ∈ productAttributes variants →
          sel1 !! ae_id e = sel2 !! ae_id e) →
    variantMatchEffect variants sel1 = variantMatchEffect variants sel2.
Proof.
  intros variants sel1 sel2 H. unfold variantMatchEffect.
  set (index := productAttributes variants) in *.
  destruct variants as [vs|]; [|done].
  destruct (length index =? 0)%nat; [done|].
  assert (Hfull : allAttributesSelected index sel1
                  = allAttributesSelected index sel2).
  { apply forallb_ext_elem_of. intros e He. by rewrite (H e He). }
  assert (Hmatch : ∀ w, matchesAll index sel1 w = matchesAll index sel2 w).
  { intros w. apply forallb_ext_elem_of. intros e He. by rewrite (H e He). }
  assert (Hnames : List.map (valueNameOf sel1) index
                   = List.map (valueNameOf sel2) index).
  { apply map_ext_elem_of. intros e He. unfold valueNameOf.
    by rewrite (H e He). }
  rewrite Hfull, Hnames, (find_ext_all _ _ vs Hmatch). done.
Qed.

Lemma variantMatchEffect_reads_index_only_witness :
  variantMatchEffect (Some Examples.colours) Examples.redM_selection
  = variantMatchEffect (Some Examples.colours) {["color" := "red"]}.
Proof.
  apply variantMatchEffect_reads_index_only.
  intros e He.
  assert (Hid : ae_id e = "color").
  { assert (Hin : ae_id e ∈ List.map ae_id
                    (productAttributes (Some Examples.colours))).
    { apply list_elem_of_In, in_map. by apply list_elem_of_In. }
    assert (Hids : List.map ae_id (productAttributes (Some Examples.colours))
                   = ["color"]) by (vm_compute; reflexivity).
    rewrite Hids in Hin. by apply list_elem_of_singleton in Hin. }
  rewrite Hid. vm_compute. reflexivity.
Defined.

(** X17. Whenever the effect reports a variant, the selection is full and
    the reported variant, taken from the catalog, carries the selected
    value of every attribute of the index; no data-model invariant is
    needed for this. *)
Theorem variantMatchEffect_report_sound :
  ∀ (variants : list ProductVariant) (sel : gmap string string) r m,
    variantMatchEffect (Some variants) sel = Some r →
    rep_variant r = Some m →
    m ∈ variants ∧
    FullSelection (productAttributes (Some variants)) sel ∧
    (∀ e, e ∈ productAttributes (Some variants) →
          ∃ x, Selected sel (ae_id e) x ∧ Carries m (ae_id e) x) ∧
    rep_attributeName r
    = join (List.map ae_name (productAttributes (Some variants))).
Proof.
  intros variants sel r m Hr Hm. unfold variantMatchEffect in Hr.
  set (index := productAttributes (Some variants)) in *.
  destruct (length index =? 0)%nat; [done|].
  destruct (allAttributesSelected index sel) eqn:Efull;
    [|injection Hr as <-; done].
  apply allAttributesSelected_Full in Efull.
  destruct (List.find (matchesAll index sel) variants) as [m'|] eqn:Efind;
    [|injection Hr as <-; done].
  injection Hr as <-. simpl in Hm. injection Hm as ->.
  apply find_some in Efind as [Hin Hmatch].
  rewrite matchesAll_spec in Hmatch.
  split; [by apply list_elem_of_In|]. split; [done|]. split; [|done].
  intros e He. destruct (Efull e He) as (x & Hx & Hne).
  destruct (Hmatch e He) as (y & Hy & Hc).
  exists x. split; [done|]. congruence.
Qed.

Lemma variantMatchEffect_report_sound_witness :
  Examples.blueS ∈ Examples.catalog.
Proof.
  apply (variantMatchEffect_report_sound Examples.catalog
           Examples.blueS_selection
           {| rep_variant := Some Examples.blueS;
              rep_attributeName := "Color, Size";
              rep_valueName := "Blue, S" |} Examples.blueS).
  - vm_compute. reflexivity.
  - reflexivity.
Defined.

(** ** The selection along a run of the component *)

Lemma apply_event_variants ev c :
  isReload ev = false → variants (apply_event ev c) = variants c.
Proof.
  destruct ev as [data|a v|]; [done| |done]. intros _. simpl.
  destruct (variants c) as [vs|] eqn:Evs; [|done].
  by destruct (hasButton (Some vs) a v).
Qed.

Lemma step_keeps_in_index c ev :
  isReload ev = false →
  (∀ vs, variants c = Some vs → forallb consistentRefs vs = true) →
  SelectionInIndex (productAttributes (variants c)) (selectedAttributes c) →
  variants (step c ev) = variants c ∧
  SelectionInIndex (productAttributes (variants (step c ev)))
    (selectedAttributes (step c ev)).
Proof.
  intros Hev Hrefs Hsel. unfold step.
  pose proof (apply_event_variants ev c Hev) as Hv.
  split; [by rewrite commit_variants|].
  apply commit_in_index. rewrite Hv.
  destruct ev as [data|a v|]; [done| |done]. simpl.
  destruct (variants c) as [vs|] eqn:Evs; [|done].
  destruct (hasButton (Some vs) a v) eqn:Eb; [|done].
  simpl. apply handleSelect_in_index; [by apply Hrefs| |done].
  by apply (hasButton_in_index vs a v).
Qed.

Lemma mount_selection data :
  selectedAttributes (mount data) = autoSelect (productAttributes data) ∅.
Proof. done. Qed.

(** X18. As long as the catalog is not reloaded, every state the component
    reaches from its mount by clicks and re-renders keeps the catalog it
    was mounted with and a selection whose attributes all belong to the
    derived index, provided the attribute references of the catalog are
    consistent. *)
Theorem selection_in_index_along_run :
  ∀ (data : option (list ProductVariant)) (evs : list Event),
    (∀ vs, data = Some vs → forallb consistentRefs vs = true) →
    forallb (fun ev => negb (isReload ev)) evs = true →
    variants (run data evs) = data ∧
    SelectionInIndex (productAttributes data)
      (selectedAttributes (run data evs)).
Proof.
  intros data evs Hrefs Hevs. unfold run.
  assert (Hinit : variants (mount data) = data ∧
                  SelectionInIndex (productAttributes data)
                    (selectedAttributes (mount data))).
  { split; [done|]. rewrite mount_selection. apply autoSelect_in_index.
    intros k [x Hk]. by rewrite lookup_empty in Hk. }
  revert Hinit. generalize (mount data) as c.
  induction evs as [|ev evs IH]; intros c [Hv Hsel]; [done|].
  simpl in Hevs. apply andb_true_iff in Hevs as [Hev Hevs].
  apply negb_true_iff in Hev. cbn [fold_left].
  apply IH; [done|].
  destruct (step_keeps_in_index c ev Hev) as [Hv' Hsel'].
  - intros vs Hvs. apply Hrefs. congruence.
  - by rewrite Hv.
  - split; [congruence|]. by rewrite Hv', Hv in Hsel'.
Qed.

Lemma selection_in_index_along_run_witness :
  SelectionInIndex (productAttributes (Some Examples.fabrics))
    (selectedAttributes
       (run (Some Examples.fabrics)
          [Click "color" "red"; Click "size" "s"; Rerender;
           Click "fabric" "wool"; Click "color" "blue"])).
Proof.
  apply selection_in_index_along_run.
  - intros vs [= <-]. vm_compute. reflexivity.
  - vm_compute. reflexivity.
Defined.

(** ** A product with a single variant *)

Lemma NoDup_all_equal_singleton {A} (l : list A) :
  NoDup l → (∀ x y, x ∈ l → y ∈ l → x = y) → l ≠ [] → ∃ x, l = [x].
Proof.
  intros Hnd Heq Hne. destruct l as [|a [|b r]]; [done|by exists a|].
  exfalso. apply NoDup_cons in Hnd as [Hnotin _]. apply Hnotin.
  rewrite (Heq a b); [apply list_elem_of_here|apply list_elem_of_here|].
  apply list_elem_of_further, list_elem_of_here.
Qed.

Lemma single_variant_values w e :
  wellFormedCatalog [w] = true →
  e ∈ productAttributes (Some [w]) →
  ∃ v0, ae_values e = [v0] ∧ Carries w (ae_id e) (ve_id v0).
Proof.
  intros Hwf He.
  destruct (wellFormedCatalog_elem_of [w] w Hwf (list_elem_of_here _ _))
    as [Hone Hrefs].
  destruct (productAttributes_value_ids [w] e He) as [Hnd Hids].
  assert (Hcar : ∀ x, x ∈ List.map ve_id (ae_values e) →
                      Carries w (ae_id e) x).
  { intros x Hx. apply Hids in Hx as (w' & p & Hw' & Hp & Hpa & Hpv).
    apply list_elem_of_singleton in Hw'. subst w'.
    exists p. split; [done|]. split; [|done].
    by rewrite (consistentRefs_spec w p Hrefs Hp). }
  destruct (NoDup_all_equal_singleton (List.map ve_id (ae_values e)))
    as [x Hx]; [done| | |].
  - intros x y Hx Hy.
    by apply (oneValuePerAttribute_functional w (ae_id e));
      [|apply Hcar|apply Hcar].
  - intros Hnil.
    assert (Ha : ae_id e ∈ List.map ae_id (productAttributes (Some [w]))).
    { apply list_elem_of_In, in_map. by apply list_elem_of_In. }
    apply productAttributes_has_id in Ha as (w' & p & Hw' & Hp & Hpa).
    assert (Hin : pvv_val p ∈ List.map ve_id (ae_values e)).
    { apply Hids. by exists w', p. }
    rewrite Hnil in Hin. by apply elem_of_nil in Hin.
  - destruct (ae_values e) as [|v0 [|v1 r]] eqn:Ev; simpl in Hx; try done.
    exists v0. split; [done|]. apply Hcar. simpl.
    apply list_elem_of_here.
Qed.

(** X19. A product with a single variant needs no click: when its catalog
    satisfies the data-model invariants, the variant has at least one
    assignment and its value identifiers are not empty, the selection
    after mounting is exactly the variant's assignment set and the
    variant-match effect reports the variant. *)
Theorem single_variant_auto_resolved :
  ∀ (w : ProductVariant),
    wellFormedCatalog [w] = true →
    product_variant_values w ≠ [] →
    forallb (fun p => negb (String.eqb (pvv_val p) ""))
      (product_variant_values w) = true →
    AssignmentsEqual w (selectedAttributes (mount (Some [w]))) ∧
    ∃ r, variantMatchEffect (Some [w]) (selectedAttributes (mount (Some [w])))
         = Some r ∧
         rep_variant r = Some w.
Proof.
  intros w Hwf Hne Hids. rewrite mount_selection.
  set (index := productAttributes (Some [w])).
  set (sel := autoSelect index ∅).
  destruct (wellFormedCatalog_elem_of [w] w Hwf (list_elem_of_here _ _))
    as [Hone Hrefs].
  assert (Hsel : ∀ e, e ∈ index →
                      ∃ v0, sel !! ae_id e = Some (ve_id v0) ∧
                            Carries w (ae_id e) (ve_id v0)).
  { intros e He. destruct (single_variant_values w e Hwf He) as (v0 & Hv & Hc).
    exists v0. split; [|done]. unfold sel.
    apply autoSelect_populates; try done.
    apply (productAttributes_NoDup_ids (Some [w])). }
  assert (Heq : AssignmentsEqual w sel).
  { intros k x. split.
    - intros Hk.
      assert (Hin : k ∈ List.map ae_id index).
      { assert (Hs : is_Some (sel !! k)) by eauto.
        unfold sel in Hs. rewrite autoSelect_fold in Hs.
        apply fold_autoSelect_step_dom in Hs as [[? Hs]|Hs]; [|done].
        by rewrite lookup_empty in Hs. }
      destruct (index_entry_of_id _ k Hin) as (e & He & <-).
      destruct (Hsel e He) as (v0 & Hv0 & Hc). congruence.
    - intros Hc.
      pose proof (Carries_AppearsOn [w] w k x Hrefs (list_elem_of_here _ _) Hc)
        as (w' & p & Hw' & Hp & Hpa & _).
      assert (Hin : k ∈ List.map ae_id index).
      { apply productAttributes_has_id. by exists w', p. }
      destruct (index_entry_of_id _ k Hin) as (e & He & <-).
      destruct (Hsel e He) as (v0 & Hv0 & Hc0).
      rewrite Hv0. f_equal.
      by apply (oneValuePerAttribute_functional w (ae_id e)). }
  split; [done|].
  assert (Hidx : index ≠ []).
  { destruct (product_variant_values w) as [|p r] eqn:Ep; [done|].
    apply (productAttributes_nonempty [w] (pvv_attr p)).
    exists w, p. split; [apply list_elem_of_here|]. split; [|done].
    rewrite Ep. apply list_elem_of_here. }
  assert (Hfull : FullSelection index sel).
  { intros e He. destruct (Hsel e He) as (v0 & Hv0 & (p & Hp & _ & Hpv)).
    exists (ve_id v0). split; [done|].
    rewrite forallb_elem_of in Hids. specialize (Hids p Hp).
    apply negb_true_iff, String.eqb_neq in Hids.
    unfold pvv_val in Hids. congruence. }
  rewrite (variantMatchEffect_loaded [w] sel Hidx). fold index.
  rewrite (proj2 (allAttributesSelected_Full _ _) Hfull).
  simpl. rewrite (AssignmentsEqual_matchesAll index sel w Hfull Heq).
  eexists. split; reflexivity.
Qed.

Lemma single_variant_auto_resolved_witness :
  AssignmentsEqual Examples.redS
    (selectedAttributes (mount (Some [Examples.redS]))).
Proof.
  apply single_variant_auto_resolved; vm_compute; try reflexivity.
  discriminate.
Defined.

(** ** The single-value selector *)

Section SingleValue.
Import SingleValueSelector.

Lemma includes_spec ids x : includes ids x = true ↔ x ∈ ids.
Proof.
  unfold includes. rewrite existsb_elem_of. setoid_rewrite String.eqb_eq.
  split; [by intros (y & Hy & ->)|]. intros H. by exists x.
Qed.

Lemma attributeIds_elem_of (l : list AttributeValue) (s0 : gset string) x :
  x ∈ fold_left (fun s v => {[av_attribute_id v]} ∪ s) l s0 ↔
  x ∈ s0 ∨ ∃ v, v ∈ l ∧ av_attribute_id v = x.
Proof.
  revert s0. induction l as [|v l IH]; intros s0; simpl.
  - split; [by left|]. intros [H|(v & Hv & _)]; [done|].
    by apply elem_of_nil in Hv.
  - rewrite IH, elem_of_union, elem_of_singleton. split.
    + intros [[->|H]|(v' & Hv' & Hx)].
      * right. exists v. split; [apply list_elem_of_here|done].
      * by left.
      * right. exists v'. split; [by apply list_elem_of_further|done].
    + intros [H|(v' & Hv' & Hx)]; [by left; right|].
      apply elem_of_cons in Hv' as [->|Hv']; [by left; left|].
      right. by exists v'.
Qed.

Lemma filter_nonempty_elem_of {A} (f : A → bool) (l : list A) :
  List.filter f l ≠ [] ↔ ∃ x, x ∈ l ∧ f x = true.
Proof.
  split.
  - destruct (List.filter f l) as [|x r] eqn:E; [done|]. intros _.
    exists x. apply filter_elem_of. rewrite E. apply list_elem_of_here.
  - intros (x & Hx & Hf) Hnil.
    assert (Hin : x ∈ List.filter f l) by (by apply filter_elem_of).
    rewrite Hnil in Hin. by apply elem_of_nil in Hin.
Qed.

Lemma availableAttributes_loaded vs avs attrs a :
  a ∈ availableAttributes (Some vs) (Some avs) (Some attrs) ↔
  a ∈ attrs ∧ getValuesForAttribute (Some vs) (Some avs) (a_id a) ≠ [].
Proof.
  simpl.
  rewrite filter_elem_of, bool_decide_eq_true, attributeIds_elem_of.
  rewrite filter_nonempty_elem_of.
  setoid_rewrite filter_elem_of. setoid_rewrite andb_true_iff.
  setoid_rewrite String.eqb_eq. split.
  - intros [Ha [H|(v & [Hv Hinc] & Hid)]]; [by apply elem_of_empty in H|].
    split; [done|]. by exists v.
  - intros [Ha (v & Hv & Hid & Hinc)].
    split; [done|]. right. by exists v.
Qed.

Lemma availableAttributes_values_nonempty variants attributeValues attributes a :
  a ∈ availableAttributes variants attributeValues attributes →
  getValuesForAttribute variants attributeValues (a_id a) ≠ [].
Proof.
  destruct variants as [vs|], attributeValues as [avs|],
    attributes as [attrs|];
    try (by intros H; apply elem_of_nil in H).
  intros H. by apply availableAttributes_loaded in H as [_ H].
Qed.

Lemma rendered_value_variant variants attributeValues k val :
  val ∈ getValuesForAttribute variants attributeValues k →
  av_attribute_id val = k ∧
  ∃ variant,
    getVariantForValue variants (av_id val) = Some variant ∧
    pv_attribute_value_id variant = av_id val.
Proof.
  destruct variants as [vs|], attributeValues as [avs|]; simpl;
    try (by intros H; apply elem_of_nil in H).
  rewrite filter_elem_of, andb_true_iff, String.eqb_eq, includes_spec.
  intros (Hval & Hk & Hinc). split; [done|].
  unfold variantValueIds in Hinc.
  apply list_elem_of_In, in_map_iff in Hinc as (v & Hv & Hin).
  apply list_elem_of_In in Hin.
  destruct (find_is_Some
              (fun v => String.eqb (pv_attribute_value_id v) (av_id val))
              vs v Hin) as [variant Hfind].
  { by apply String.eqb_eq. }
  exists variant. split; [done|].
  apply find_some in Hfind as [_ Hid]. by apply String.eqb_eq.
Qed.

(** X20. The attributes offered by the single-value selector are exactly
    the loaded attributes that have at least one value to show, so the
    guards against an empty value list, in the render and in the
    auto-select effect, never fire for an offered attribute. *)
Theorem availableAttributes_have_values :
  ∀ (variants : option (list ProductVariant))
    (attributeValues : option (list AttributeValue))
    (attributes : option (list Attribute)) (a : Attribute),
    a ∈ availableAttributes variants attributeValues attributes ↔
    (∃ attrs, attributes = Some attrs ∧ a ∈ attrs) ∧
    getValuesForAttribute variants attributeValues (a_id a) ≠ [].
Proof.
  intros [vs|] [avs|] [attrs|] a;
    try (split; [by intros H; apply elem_of_nil in H|];
         by intros [(? & ? & ?) ?]).
  rewrite availableAttributes_loaded. split.
  - intros [Ha Hne]. split; [by exists attrs|done].
  - intros [(attrs' & [= <-] & Ha) Hne]. done.
Qed.

(** X21. Every value the single-value selector renders for an attribute
    belongs to that attribute and has a variant: [getVariantForValue]
    finds one carrying the value, and a click on the value sets its
    selection entry and reports that (non-null) variant. *)
Theorem rendered_value_has_variant :
  ∀ (variants : option (list ProductVariant))
    (attributeValues : option (list AttributeValue))
    (attributes : option (list Attribute))
    (sel : gmap string string) (k : string) (val : AttributeValue),
    val ∈ getValuesForAttribute variants attributeValues k →
    av_attribute_id val = k ∧
    ∃ variant,
      getVariantForValue variants (av_id val) = Some variant ∧
      pv_attribute_value_id variant = av_id val ∧
      reportedVariant
        (handleSelect variants attributeValues attributes sel k (av_id val))
      = Some variant ∧
      newSelected
        (handleSelect variants attributeValues attributes sel k (av_id val))
      = <[k := av_id val]> sel.
Proof.
  intros variants attributeValues attributes sel k val Hval.
  destruct (rendered_value_variant variants attributeValues k val Hval)
    as (Hk & variant & Hfind & Hid).
  split; [done|]. exists variant. by repeat split.
Qed.

Lemma rendered_value_has_variant_witness :
  av_attribute_id red = "color".
Proof.
  apply (rendered_value_has_variant (Some [redVariant]) (Some [red; green])
           (Some [colour; material]) ∅ "color" red).
  vm_compute. apply list_elem_of_here.
Defined.

(** X22. When exactly one attribute is offered and nothing is selected,
    the auto-select effect of the single-value selector always selects the
    first value of that attribute and reports a (non-null) variant; when
    something is selected it does nothing. *)
Theorem autoSelectEffect_single_attribute :
  ∀ (variants : option (list ProductVariant))
    (attributeValues : option (list AttributeValue))
    (attributes : option (list Attribute)) (sel : gmap string string),
    (∀ a, availableAttributes variants attributeValues attributes = [a] →
          sel = ∅ →
          ∃ v0 rest variant,
            getValuesForAttribute variants attributeValues (a_id a)
            = v0 :: rest ∧
            autoSelectEffect variants attributeValues attributes sel
            = Some (handleSelect variants attributeValues attributes sel
                      (a_id a) (av_id v0)) ∧
            reportedVariant
              (handleSelect variants attributeValues attributes sel
                 (a_id a) (av_id v0)) = Some variant) ∧
    (sel ≠ ∅ →
     autoSelectEffect variants attributeValues attributes sel = None).
Proof.
  intros variants attributeValues attributes sel. split.
  - intros a Ha ->.
    assert (Hin : a ∈ availableAttributes variants attributeValues attributes).
    { rewrite Ha. apply list_elem_of_here. }
    apply availableAttributes_values_nonempty in Hin.
    destruct (getValuesForAttribute variants attributeValues (a_id a))
      as [|v0 rest] eqn:Ev; [done|].
    assert (Hv0 : v0 ∈ getValuesForAttribute variants attributeValues (a_id a)).
    { rewrite Ev. apply list_elem_of_here. }
    destruct (rendered_value_variant variants attributeValues (a_id a) v0 Hv0)
      as (_ & variant & Hfind & _).
    exists v0, rest, variant. split; [done|]. split; [|done].
    unfold autoSelectEffect. rewrite Ha, Ev, map_to_list_empty. done.
  - intros Hne. unfold autoSelectEffect.
    destruct (availableAttributes variants attributeValues attributes)
      as [|a [|? ?]]; try done.
    destruct (map_to_list sel) as [|kv r] eqn:El; [|done].
    by apply map_to_list_empty_iff in El.
Qed.

Lemma autoSelectEffect_single_attribute_witness :
  ∃ v0 rest variant,
    getValuesForAttribute (Some [redVariant]) (Some [red; green]) (a_id colour)
    = v0 :: rest ∧
    autoSelectEffect (Some [redVariant]) (Some [red; green])
      (Some [colour; material]) ∅
    = Some (handleSelect (Some [redVariant]) (Some [red; green])
              (Some [colour; material]) ∅ (a_id colour) (av_id v0)) ∧
    reportedVariant
      (handleSelect (Some [redVariant]) (Some [red; green])
         (Some [colour; material]) ∅ (a_id colour) (av_id v0))
    = Some variant.
Proof.
  apply (proj1 (autoSelectEffect_single_attribute (Some [redVariant])
                  (Some [red; green]) (Some [colour; material]) ∅)).
  - vm_compute. reflexivity.
  - reflexivity.
Defined.

End SingleValue.

(** ** The selection across catalog deliveries *)

Lemma step_data_in_index c data :
  SelectionInIndex (productAttributes data) (selectedAttributes c) →
  variants (step c (QueryData data)) = data ∧
  SelectionInIndex (productAttributes data)
    (selectedAttributes (step c (QueryData data))).
Proof.
  intros Hsel. unfold step.
  assert (Hv : variants (apply_event (QueryData data) c) = data).
  { simpl. by destruct data, (variants c) eqn:Evs. }
  assert (Hs : selectedAttributes (apply_event (QueryData data) c)
               = selectedAttributes c).
  { simpl. by destruct data, (variants c). }
  split; [by rewrite commit_variants|].
  pose proof (commit_in_index (apply_event (QueryData data) c)) as H.
  rewrite commit_variants, Hv, Hs in H. by apply H.
Qed.

Lemma fold_step_in_index evs c data :
  (∀ vs, data = Some vs → forallb consistentRefs vs = true) →
  forallb (fun ev => negb (isReload ev)) evs = true →
  variants c = data →
  SelectionInIndex (productAttributes data) (selectedAttributes c) →
  variants (fold_left step evs c) = data ∧
  SelectionInIndex (productAttributes data)
    (selectedAttributes (fold_left step evs c)).
Proof.
  intros Hrefs. revert c.
  induction evs as [|ev evs IH]; intros c Hevs Hv Hsel; [done|].
  simpl in Hevs. apply andb_true_iff in Hevs as [Hev Hevs].
  apply negb_true_iff in Hev. cbn [fold_left].
  destruct (step_keeps_in_index c ev Hev) as [Hv' Hsel'].
  - intros vs Hvs. apply Hrefs. congruence.
  - by rewrite Hv.
  - apply IH; [done|congruence|]. by rewrite Hv', Hv in Hsel'.
Qed.

Lemma autoSelect_step_dom_mono sel ch e k :
  is_Some (sel !! k) → is_Some (fst (autoSelect_step (sel, ch) e) !! k).
Proof.
  intros Hk. simpl. destruct (ae_values e) as [|v0 [|? ?]]; try done.
  destruct (negb (truthy (sel !! ae_id e))); [|done]. simpl.
  destruct (decide (ae_id e = k)) as [->|Hne].
  - rewrite lookup_insert_eq. eauto.
  - by rewrite lookup_insert_ne.
Qed.

Lemma autoSelect_dom_mono (index : list (AttrEntry (list ValueEntry))) sel k :
  is_Some (sel !! k) → is_Some (autoSelect index sel !! k).
Proof.
  rewrite autoSelect_fold. generalize false as ch. revert sel.
  induction index as [|e index IH]; intros sel ch Hk; [done|].
  cbn [fold_left].
  destruct (autoSelect_step (sel, ch) e) as [sel1 ch1] eqn:E.
  apply IH. change sel1 with (fst (sel1, ch1)). rewrite <- E.
  by apply autoSelect_step_dom_mono.
Qed.

Lemma step_data_dom_mono c data k :
  is_Some (selectedAttributes c !! k) →
  is_Some (selectedAttributes (step c (QueryData data)) !! k).
Proof.
  intros Hk. unfold step.
  assert (Hs : selectedAttributes (apply_event (QueryData data) c)
               = selectedAttributes c).
  { simpl. by destruct data, (variants c). }
  destruct (commit_selection (apply_event (QueryData data) c)) as [-> | ->];
    rewrite Hs; [done|]. by apply autoSelect_dom_mono.
Qed.

(** C6, amended.  The selection is within the derived index when the
    component mounts.  While no catalog data is delivered, on catalogs whose
    attribute references are consistent, clicks and re-renders keep every
    attribute of the selection within the derived index.  A delivery of
    catalog data does not invalidate the selection: every value selected
    before it is still selected after it; hence the delivery keeps the
    selection within the derived index exactly when the previous selection
    already lies within the index of the delivered catalog, as it does for
    the first catalog delivered to a component mounted while loading.  In
    particular, in the life of a component that is mounted while loading,
    receives its catalog and is then clicked and re-rendered, every
    attribute of the selection appears in the derived index. *)
Theorem selection_kept_across_reload :
  (∀ data,
      SelectionInIndex (productAttributes data)
        (selectedAttributes (mount data))) ∧
  (∀ c ev,
      isReload ev = false →
      (∀ vs, variants c = Some vs → forallb consistentRefs vs = true) →
      SelectionInIndex (productAttributes (variants c)) (selectedAttributes c) →
      variants (step c ev) = variants c ∧
      SelectionInIndex (productAttributes (variants (step c ev)))
        (selectedAttributes (step c ev))) ∧
  (∀ c data k x,
      Selected (selectedAttributes c) k x →
      Selected (selectedAttributes (step c (QueryData data))) k x) ∧
  (∀ c data,
      variants (step c (QueryData data)) = data ∧
      (SelectionInIndex (productAttributes data) (selectedAttributes c) ↔
       SelectionInIndex (productAttributes data)
         (selectedAttributes (step c (QueryData data))))) ∧
  (∀ (data : option (list ProductVariant)) (evs : list Event),
      (∀ vs, data = Some vs → forallb consistentRefs vs = true) →
      forallb (fun ev => negb (isReload ev)) evs = true →
      variants (run None (QueryData data :: evs)) = data ∧
      SelectionInIndex (productAttributes data)
        (selectedAttributes (run None (QueryData data :: evs)))).
Proof.
  assert (Hmount : ∀ data,
             SelectionInIndex (productAttributes data)
               (selectedAttributes (mount data))).
  { intros data. rewrite mount_selection. apply autoSelect_in_index.
    intros k [x Hk]. by rewrite lookup_empty in Hk. }
  assert (Hkept : ∀ c data k x,
             Selected (selectedAttributes c) k x →
             Selected (selectedAttributes (step c (QueryData data))) k x).
  { intros c data k x H. unfold step. apply commit_Selected.
    simpl. by destruct data, (variants c). }
  split; [done|]. split; [|split; [done|split]].
  - intros c ev Hev Hrefs Hsel. by apply step_keeps_in_index.
  - intros c data. split.
    + unfold step. rewrite commit_variants. simpl.
      by destruct data, (variants c) eqn:Evs.
    + split.
      * intros Hsel. by apply step_data_in_index.
      * intros Hin k Hk. by apply Hin, step_data_dom_mono.
  - intros data evs Hrefs Hevs. unfold run. cbn [fold_left].
    destruct (step_data_in_index (mount None) data) as [Hv Hin].
    { rewrite mount_selection. cbn [productAttributes].
      rewrite autoSelect_nil.
      intros k [x Hk]. by rewrite lookup_empty in Hk. }
    by apply fold_step_in_index.
Qed.

Lemma selection_kept_across_reload_witness :
  Selected
    (selectedAttributes
       (step (run None [QueryData (Some Examples.catalog); Click "color" "red"])
          (QueryData (Some Examples.sizes))))
    "color" "red" ∧
  SelectionInIndex (productAttributes (Some Examples.fabrics))
    (selectedAttributes
       (run None
          [QueryData (Some Examples.fabrics);
           Click "color" "red"; Click "size" "s"; Rerender;
           Click "fabric" "wool"; Click "color" "blue"])).
Proof.
  split.
  - apply (proj1 (proj2 (proj2 selection_kept_across_reload))).
    split; [vm_compute; reflexivity|discriminate].
  - apply (proj2 (proj2 (proj2 (proj2 selection_kept_across_reload)))
             (Some Examples.fabrics)).
    + intros vs [= <-]. vm_compute. reflexivity.
    + vm_compute. reflexivity.
Defined.
